(** * MedBuddy appointment booking: the reservation engine of [backend/app.py]

    A shallow embedding of the slot store, the appointment ledger and the
    request handlers [book], [cancel], [add_slot] and [admin_update] of
    [backend/app.py], with the properties of the reservation state machine
    proved over it.

    The two SQLite tables are lists of rows in rowid order.  A [SELECT ...
    WHERE] is a [filter], [fetchone()] is [head], [COUNT( * )] is [length]
    and an [UPDATE ... WHERE] rewrites the rows that satisfy the predicate
    and leaves the others as they are.  Every handler is a function from the
    store to the store and the response it sends. *)

From Stdlib Require Import Ascii String DecimalString DecimalNat.
From stdpp Require Import base decidable option list sorting strings.

(** ** Text rendering: [str], [zfill], [strftime], [isoformat] *)

(** Python's [str(n)] for a non-negative integer: its decimal digits. *)
Definition str (n : nat) : string := NilZero.string_of_uint (Nat.to_uint n).

Fixpoint zeros (n : nat) : string :=
  match n with
  | O => EmptyString
  | S k => String "0"%char (zeros k)
  end.

(** Python's [s.zfill(width)] on a string of digits: zeros are added on the
    left until the string has [width] characters; a longer string is kept. *)
Definition zfill (width : nat) (s : string) : string :=
  zeros (width - String.length s) +:+ s.

(** What [datetime.now()] returns. *)
Record Datetime : Type := mkDatetime {
  year : nat;
  month : nat;
  day : nat;
  hour : nat;
  minute : nat;
  second : nat;
  microsecond : nat
}.

(** [d.strftime('%Y%m%d')]. *)
Definition strftime_Ymd (d : Datetime) : string :=
  zfill 4 (str (year d)) +:+ zfill 2 (str (month d)) +:+ zfill 2 (str (day d)).

(** [d.isoformat()]: the fraction is printed only when it is not zero. *)
Definition isoformat (d : Datetime) : string :=
  zfill 4 (str (year d)) +:+ "-" +:+ zfill 2 (str (month d)) +:+ "-" +:+
  zfill 2 (str (day d)) +:+ "T" +:+ zfill 2 (str (hour d)) +:+ ":" +:+
  zfill 2 (str (minute d)) +:+ ":" +:+ zfill 2 (str (second d)) +:+
  (if decide (microsecond d = 0) then EmptyString
   else "." +:+ zfill 6 (str (microsecond d))).

(** ** The two tables *)

(** Modelled from the spec: the [CREATE TABLE] statements are not part of the
    source.  The columns are the ones the statements of [app.py] name, in the
    order of [INSERT INTO slots VALUES (NULL,?,?,?,0)]; [id] is the integer
    primary key, which SQLite fills in when the inserted value is NULL or the
    column is left out; [is_booked] only ever holds 0 or 1. *)
Module Slot.
Record t : Type := mk {
  id : nat;
  slot_date : string;
  start_time : string;
  end_time : string;
  is_booked : bool
}.

Definition set_is_booked (b : bool) (s : t) : t :=
  mk (id s) (slot_date s) (start_time s) (end_time s) b.
End Slot.

Module Appointment.
Record t : Type := mk {
  id : nat;
  confirmation_code : string;
  patient_name : string;
  mobile : string;
  address : string;
  slot_id : nat;
  appointment_date : string;
  slot_time : string;
  status : string;
  meeting_link : option string;
  admin_remarks : option string;
  created_at : string;
  updated_at : string
}.

Definition set_status (st : string) (a : t) : t :=
  mk (id a) (confirmation_code a) (patient_name a) (mobile a) (address a)
     (slot_id a) (appointment_date a) (slot_time a) st
     (meeting_link a) (admin_remarks a) (created_at a) (updated_at a).

(** The [SET] clause of [admin_update]. *)
Definition set_admin (st : string) (link remarks : option string)
    (now : string) (a : t) : t :=
  mk (id a) (confirmation_code a) (patient_name a) (mobile a) (address a)
     (slot_id a) (appointment_date a) (slot_time a) st
     link remarks (created_at a) now.
End Appointment.

Global Instance slot_eq_dec : EqDecision Slot.t.
Proof. solve_decision. Defined.

Global Instance appointment_eq_dec : EqDecision Appointment.t.
Proof. solve_decision. Defined.

Record Store : Type := mkStore {
  slots : list Slot.t;
  appointments : list Appointment.t
}.

Global Instance store_eq_dec : EqDecision Store.
Proof. solve_decision. Defined.

(** The database before any request. *)
Definition empty_store : Store := mkStore [] [].

(** ** SQL statements on a table *)

(** [UPDATE table SET set WHERE cond]. *)
Definition sql_update {A : Type} (cond : A → Prop) `{!∀ r, Decision (cond r)}
    (set : A → A) (table : list A) : list A :=
  (λ r, if decide (cond r) then set r else r) <$> table.

(** The rowid SQLite gives to a row inserted without one: one more than the
    largest in the table, 1 in an empty table. *)
Definition next_rowid (ids : list nat) : nat := S (max_list ids).

(** ** Requests and responses *)

(** The JSON body of [POST /api/book]; a key may be absent.  A value is
    taken at the type of the column it is written to: text, and a rowid for
    [slot_id].  Bodies that carry values of other JSON types are outside
    the model. *)
Module BookForm.
Record t : Type := mk {
  slot_id : option nat;
  patient_name : option string;
  mobile : option string;
  address : option string
}.
End BookForm.

Inductive Response : Type :=
  | Booked (confirmation_code : string)
      (* 200 {"success": True, "confirmation_code": code} *)
  | SlotNotAvailable
      (* 400 {"error": "Slot not available"} *)
  | Success
      (* 200 {"success": True} *)
  | KeyError (key : string).
      (* f[key] on a body without that key: the handler is left by the
         exception before it writes *)

Global Instance response_eq_dec : EqDecision Response.
Proof. solve_decision. Defined.

(** [f[key]] and the statements after it: the exception ends the handler
    with the store [st] as it is. *)
Notation "'let!' x ':=' f '[' key ']' 'or' st 'in' k" :=
  (match f with
   | Some x => k
   | None => (st, KeyError key)
   end)
  (at level 10, x name, f at level 9, k at level 200, only parsing).

(** ** The handlers *)

Definition is_free (slot_id : nat) (s : Slot.t) : Prop :=
  Slot.id s = slot_id ∧ Slot.is_booked s = false.

Global Instance is_free_dec slot_id s : Decision (is_free slot_id s).
Proof. unfold is_free. apply _. Defined.

(** [book()], [POST /api/book].  [today] and [now] are the values of the two
    calls of [datetime.now()], in that order. *)
Definition book (f : BookForm.t) (today now : Datetime) (st : Store)
    : Store * Response :=
  let! slot_id := (BookForm.slot_id f)["slot_id"] or st in
  match head (filter (is_free slot_id) (slots st)) with
  | None => (st, SlotNotAvailable)
  | Some slot =>
      let count := length (appointments st) + 1 in
      let code := "MB-" +:+ strftime_Ymd today +:+ "-" +:+ zfill 4 (str count) in
      let now := isoformat now in
      let! patient_name := (BookForm.patient_name f)["patient_name"] or st in
      let! mobile := (BookForm.mobile f)["mobile"] or st in
      let! address := (BookForm.address f)["address"] or st in
      let row :=
        Appointment.mk
          (next_rowid (Appointment.id <$> appointments st))
          code patient_name mobile address
          (Slot.id slot) (Slot.slot_date slot)
          (Slot.start_time slot +:+ "-" +:+ Slot.end_time slot)
          "RESERVED" None None now now in
      (mkStore
         (sql_update (λ s, Slot.id s = Slot.id slot)
                     (Slot.set_is_booked true) (slots st))
         (appointments st ++ [row]),
       Booked code)
  end.

(** [cancel(code)], [POST /api/cancel/<code>]. *)
Definition cancel (code : string) (st : Store) : Store * Response :=
  match head (filter (λ a, Appointment.confirmation_code a = code)
                     (appointments st)) with
  | Some appt =>
      if decide (Appointment.status appt = "RESERVED") then
        (mkStore
           (sql_update (λ s, Slot.id s = Appointment.slot_id appt)
                       (Slot.set_is_booked false) (slots st))
           (sql_update (λ a, Appointment.confirmation_code a = code)
                       (Appointment.set_status "CANCELLED") (appointments st)),
         Success)
      else (st, Success)
  | None => (st, Success)
  end.

(** [add_slot()], [POST /api/admin/slots], on a body that has its three
    keys. *)
Definition add_slot (slot_date start_time end_time : string) (st : Store)
    : Store * Response :=
  (mkStore
     (slots st ++
        [Slot.mk (next_rowid (Slot.id <$> slots st))
                 slot_date start_time end_time false])
     (appointments st),
   Success).

(** [admin_update(id)], [POST /api/admin/update/<int:id>], on a body that has
    its three keys; [meeting_link] and [remarks] may be JSON null. *)
Definition admin_update (id : nat) (status : string)
    (meeting_link remarks : option string) (now : Datetime) (st : Store)
    : Store * Response :=
  (mkStore
     (slots st)
     (sql_update (λ a, Appointment.id a = id)
                 (Appointment.set_admin status meeting_link remarks
                                        (isoformat now))
                 (appointments st)),
   Success).

(** ** The expiry sweep *)

(** Modelled from the spec: [scheduler.py], which defines
    [auto_expire_reserved], is not part of the source.  A run selects every
    appointment with status RESERVED whose age since [created_at] exceeds the
    expiry threshold.  [age] measures, at the time of the run, the age of a
    [created_at] stamp in the unit of [threshold]; the source fixes neither
    the unit nor the threshold. *)
Definition is_stale (age : string → nat) (threshold : nat)
    (a : Appointment.t) : Prop :=
  Appointment.status a = "RESERVED" ∧ threshold < age (Appointment.created_at a).

Global Instance is_stale_dec age threshold a :
  Decision (is_stale age threshold a).
Proof. unfold is_stale. apply _. Defined.

Definition still_reserved (id : nat) (a : Appointment.t) : Prop :=
  Appointment.id a = id ∧ Appointment.status a = "RESERVED".

Global Instance still_reserved_dec id a : Decision (still_reserved id a).
Proof. unfold still_reserved. apply _. Defined.

(** Modelled from the spec: the transaction of the sweep for one selected
    appointment.  The update of the status is conditioned on the status
    still being RESERVED at write time; when no row is left to update the
    expiry is skipped for that row, otherwise the slot is released with
    it. *)
Definition expire_one (st : Store) (appt : Appointment.t) : Store :=
  if decide (Exists (still_reserved (Appointment.id appt)) (appointments st))
  then
    mkStore
      (sql_update (λ s, Slot.id s = Appointment.slot_id appt)
                  (Slot.set_is_booked false) (slots st))
      (sql_update (still_reserved (Appointment.id appt))
                  (Appointment.set_status "EXPIRED") (appointments st))
  else st.

(** Modelled from the spec: one run of the expiry sweep, [runExpirySweep()],
    the job that [app.py] schedules every 10 minutes.  The rows are selected
    first and then expired one transaction at a time. *)
Definition auto_expire_reserved (age : string → nat) (threshold : nat)
    (st : Store) : Store :=
  foldl expire_one st (filter (is_stale age threshold) (appointments st)).

(** ** Reachable stores *)

(** The public operations that write to the store, with what each one reads
    from its request and from the clock. *)
Inductive Operation : Type :=
  | Book (f : BookForm.t) (today now : Datetime)
  | Cancel (code : string)
  | AddSlot (slot_date start_time end_time : string)
  | UpdateStatus (id : nat) (status : string)
                 (meeting_link remarks : option string) (now : Datetime)
  | ExpirySweep (age : string → nat) (threshold : nat).

Definition run (op : Operation) (st : Store) : Store :=
  match op with
  | Book f today now => (book f today now st).1
  | Cancel code => (cancel code st).1
  | AddSlot slot_date start_time end_time =>
      (add_slot slot_date start_time end_time st).1
  | UpdateStatus id status meeting_link remarks now =>
      (admin_update id status meeting_link remarks now st).1
  | ExpirySweep age threshold => auto_expire_reserved age threshold st
  end.

(** The stores that a sequence of operations, each one allowed in the store
    it runs in, produces from the empty database. *)
Inductive reachable_by (allowed : Store → Operation → Prop) : Store → Prop :=
  | reachable_empty : reachable_by allowed empty_store
  | reachable_run st op :
      reachable_by allowed st → allowed st op →
      reachable_by allowed (run op st).

Definition reachable : Store → Prop := reachable_by (λ _ _, True).

(** An appointment holds its slot while it is RESERVED or CONFIRMED. *)
Definition is_active (status : string) : Prop :=
  status = "RESERVED" ∨ status = "CONFIRMED".

Global Instance is_active_dec status : Decision (is_active status).
Proof. unfold is_active. apply _. Defined.

Definition holds_slot (slot_id : nat) (a : Appointment.t) : Prop :=
  Appointment.slot_id a = slot_id ∧ is_active (Appointment.status a).

Global Instance holds_slot_dec slot_id a : Decision (holds_slot slot_id a).
Proof. unfold holds_slot. apply _. Defined.

(** The number of active appointments of a slot. *)
Definition active_count (slot_id : nat) (appts : list Appointment.t) : nat :=
  length (filter (holds_slot slot_id) appts).

(** The slot invariant of the data model: a slot is booked exactly when one
    appointment holds it, and is held by none otherwise. *)
Definition slot_invariant (st : Store) : Prop :=
  ∀ s, s ∈ slots st →
    (Slot.is_booked s = true ↔ active_count (Slot.id s) (appointments st) = 1).

(** An [UpdateStatus] that keeps every appointment it rewrites on its side
    of the line between active and inactive; the other operations are not
    restricted. *)
Definition keeps_activity (st : Store) (op : Operation) : Prop :=
  match op with
  | UpdateStatus id status _ _ _ =>
      ∀ a, a ∈ appointments st → Appointment.id a = id →
        (is_active (Appointment.status a) ↔ is_active status)
  | _ => True
  end.

(** ** Reading a confirmation code back *)

Fixpoint has_dash (s : string) : bool :=
  match s with
  | EmptyString => false
  | String c r => if decide (c = "-"%char) then true else has_dash r
  end.

(** The part of a string after its last hyphen. *)
Fixpoint last_field (s : string) : string :=
  match s with
  | EmptyString => EmptyString
  | String c r =>
      if has_dash r then last_field r
      else if decide (c = "-"%char) then r else String c r
  end.

(** The number that the last field of a confirmation code spells. *)
Definition code_number (code : string) : option nat :=
  Nat.of_uint <$> NilEmpty.uint_of_string (last_field code).

(** ** Primary keys and the bookkeeping of a store *)

(** What holds of every store the handlers produce: the rowids of both tables
    count up from 1, the code of the k-th appointment spells k, and every
    appointment refers to a slot of the store. *)
Record consistent (st : Store) : Prop := mkConsistent {
  slot_ids : Slot.id <$> slots st = seq 1 (length (slots st));
  appointment_ids :
    Appointment.id <$> appointments st = seq 1 (length (appointments st));
  appointment_codes :
    ∀ k a, appointments st !! k = Some a →
      code_number (Appointment.confirmation_code a) = Some (S k);
  appointment_slots :
    ∀ a, a ∈ appointments st →
      Appointment.slot_id a ∈ (Slot.id <$> slots st)
}.

(** A rewrite of the appointments that keeps the three identifying columns
    of each row. *)
Definition keeps_identity (h : Appointment.t → Appointment.t) : Prop :=
  ∀ a, Appointment.id (h a) = Appointment.id a ∧
       Appointment.confirmation_code (h a) = Appointment.confirmation_code a ∧
       Appointment.slot_id (h a) = Appointment.slot_id a.

(** The slot invariant with its other half: a slot that is not booked is
    held by no appointment. *)
Definition slot_accounting (st : Store) : Prop :=
  ∀ s, s ∈ slots st →
    active_count (Slot.id s) (appointments st)
    = if Slot.is_booked s then 1 else 0.

(** A selected row of the sweep names the slot that the row of the same
    rowid names in the store. *)
Definition same_slot_as_stored (st : Store) (b : Appointment.t) : Prop :=
  ∀ r, r ∈ appointments st → Appointment.id r = Appointment.id b →
    Appointment.slot_id r = Appointment.slot_id b.

(** The slots of rowid [j] are free. *)
Definition released (j : nat) (st : Store) : Prop :=
  ∀ s, s ∈ slots st → Slot.id s = j → Slot.is_booked s = false.

(** The rows that a run over [selected] expires: the RESERVED rows whose
    rowid is among the selected ones. *)
Definition expired_by (selected : list Appointment.t) (a : Appointment.t)
    : Prop :=
  Appointment.status a = "RESERVED" ∧
  Appointment.id a ∈ (Appointment.id <$> selected).

Global Instance expired_by_dec selected a : Decision (expired_by selected a).
Proof. unfold expired_by. apply _. Defined.

(** The malformed bodies that the error taxonomy gives as examples: one of
    [patient_name], [mobile] and [address] is missing or empty. *)
Definition missing_or_empty (v : option string) : Prop :=
  v = None ∨ v = Some EmptyString.

Definition malformed (f : BookForm.t) : Prop :=
  missing_or_empty (BookForm.patient_name f) ∨
  missing_or_empty (BookForm.mobile f) ∨
  missing_or_empty (BookForm.address f).

(** A body that lacks one of the four keys that [book] reads. *)
Definition lacks_key (f : BookForm.t) : Prop :=
  BookForm.slot_id f = None ∨ BookForm.patient_name f = None ∨
  BookForm.mobile f = None ∨ BookForm.address f = None.

(** ** A small clinic, for the examples *)

Definition jan5 : Datetime := mkDatetime 2024 1 5 9 30 0 0.
Definition jan5_later : Datetime := mkDatetime 2024 1 5 10 1 0 0.

Definition one_slot : Store :=
  run (AddSlot "2024-01-10" "10:00" "10:30") empty_store.

Definition form_A : BookForm.t :=
  BookForm.mk (Some 1) (Some "A") (Some "9000000001") (Some "12 Hill Road").

Definition form_nameless : BookForm.t :=
  BookForm.mk (Some 1) (Some EmptyString) (Some "9000000001")
              (Some "12 Hill Road").

Definition form_no_mobile : BookForm.t :=
  BookForm.mk (Some 1) (Some "A") None (Some "12 Hill Road").

Definition booked_once : Store := run (Book form_A jan5 jan5) one_slot.

Definition slot_1 : Slot.t := Slot.mk 1 "2024-01-10" "10:00" "10:30" false.

Definition appointment_A : Appointment.t :=
  Appointment.mk 1 "MB-20240105-0001" "A" "9000000001" "12 Hill Road"
                 1 "2024-01-10" "10:00-10:30" "RESERVED" None None
                 "2024-01-05T09:30:00" "2024-01-05T09:30:00".

(** Staff confirm the booking: the appointment stays active. *)
Definition confirmed_by_staff : Store :=
  run (UpdateStatus 1 "CONFIRMED" (Some "https://meet.example/a") None
                    jan5_later)
      booked_once.

(** Staff set the booking to CANCELLED through [admin_update]. *)
Definition cancelled_by_staff : Store :=
  run (UpdateStatus 1 "CANCELLED" None None jan5_later) booked_once.

(** Two slots, both booked, the first booking cancelled by the patient. *)
Definition form_B : BookForm.t :=
  BookForm.mk (Some 2) (Some "B") (Some "9000000002") (Some "3 Lake View").

Definition two_bookings : Store :=
  run (Cancel "MB-20240105-0001")
    (run (Book form_B jan5_later jan5_later)
       (run (Book form_A jan5 jan5)
          (run (AddSlot "2024-01-10" "10:30" "11:00") one_slot))).

(** The row of [appointment_A] after a cancellation and after an expiry. *)
Definition appointment_A_cancelled : Appointment.t :=
  Appointment.mk 1 "MB-20240105-0001" "A" "9000000001" "12 Hill Road"
                 1 "2024-01-10" "10:00-10:30" "CANCELLED" None None
                 "2024-01-05T09:30:00" "2024-01-05T09:30:00".

Definition appointment_A_expired : Appointment.t :=
  Appointment.mk 1 "MB-20240105-0001" "A" "9000000001" "12 Hill Road"
                 1 "2024-01-10" "10:00-10:30" "EXPIRED" None None
                 "2024-01-05T09:30:00" "2024-01-05T09:30:00".

(** A later clock, on another day and with a fraction of a second. *)
Definition jul9 : Datetime := mkDatetime 2031 7 9 23 59 58 250.

(** Three slots.  A and C book at 09:30, staff confirm C, B books at 10:01;
    the sweep runs at 10:01 with a threshold of 30 minutes. *)
Definition form_C : BookForm.t :=
  BookForm.mk (Some 3) (Some "C") (Some "9000000003") (Some "7 Mill Lane").

Definition three_bookings : Store :=
  run (Book form_B jan5_later jan5_later)
    (run (UpdateStatus 2 "CONFIRMED" None None jan5_later)
       (run (Book form_C jan5 jan5)
          (run (Book form_A jan5 jan5)
             (run (AddSlot "2024-01-10" "11:00" "11:30")
                (run (AddSlot "2024-01-10" "10:30" "11:00") one_slot))))).

(** The clock of that sweep: a stamp of 09:30 is 31 minutes old, any other
    stamp is new. *)
Definition minutes_at_1001 (created_at : string) : nat :=
  if decide (created_at = "2024-01-05T09:30:00") then 31 else 0.

(** ** The handlers that only read *)

(** [ORDER BY k1, k2] on two text columns: rows compare by [k1] under [le1]
    and, where [k1] is the same, by [k2] under [le2].  SQLite compares text
    byte by byte, which is [String.le]; [DESC] is [flip String.le]. *)
Definition order_by {A : Type} (le1 le2 : relation string)
    (k1 k2 : A → string) : relation A :=
  λ x y, strict le1 (k1 x) (k1 y) ∨ (k1 x = k1 y ∧ le2 (k2 x) (k2 y)).

Global Instance order_by_dec {A : Type} (le1 le2 : relation string)
    `{!RelDecision le1, !RelDecision le2} (k1 k2 : A → string) :
  RelDecision (order_by le1 le2 k1 k2).
Proof. intros x y. unfold order_by, strict. apply _. Defined.

(** The sorter of [ORDER BY]: a row goes in front of the first sorted row
    that it does not come after, so rows that tie keep their rowid
    order. *)
Fixpoint sorted_insert {A : Type} (R : relation A) `{!RelDecision R}
    (x : A) (l : list A) : list A :=
  match l with
  | [] => [x]
  | y :: rest =>
      if decide (R x y) then x :: l else y :: sorted_insert R x rest
  end.

Definition order_by_sort {A : Type} (R : relation A) `{!RelDecision R}
    (l : list A) : list A :=
  foldr (sorted_insert R) [] l.

(** [ORDER BY slot_date, start_time]. *)
Definition by_date_start : relation Slot.t :=
  order_by String.le String.le Slot.slot_date Slot.start_time.

(** [ORDER BY appointment_date DESC, slot_time ASC]. *)
Definition by_date_desc_time : relation Appointment.t :=
  order_by (flip String.le) String.le
           Appointment.appointment_date Appointment.slot_time.

(** [ORDER BY created_at DESC]. *)
Definition newest_first : relation Appointment.t :=
  λ a b, String.le (Appointment.created_at b) (Appointment.created_at a).

Global Instance newest_first_dec : RelDecision newest_first.
Proof. intros a b. unfold newest_first. apply _. Defined.

(** [available_slots()], [GET /api/slots].  Rows that tie on both columns
    come out in rowid order. *)
Definition available_slots (st : Store) : list Slot.t :=
  order_by_sort by_date_start
             (filter (λ s, Slot.is_booked s = false) (slots st)).

(** What [status()] sends. *)
Inductive StatusResponse : Type :=
  | Found (appt : Appointment.t)
      (* 200 with the columns of the row *)
  | NotFound.
      (* 404 {"error": "Not found"} *)

(** [status()], [POST /api/status], on a body that has its key. *)
Definition status (confirmation_code : string) (st : Store)
    : StatusResponse :=
  match head (filter (λ a, Appointment.confirmation_code a
                           = confirmation_code) (appointments st)) with
  | Some appt => Found appt
  | None => NotFound
  end.

(** [history()], [POST /api/history], on a body that has its key. *)
Definition history (mobile : string) (st : Store) : list Appointment.t :=
  order_by_sort newest_first
             (filter (λ a, Appointment.mobile a = mobile) (appointments st)).

(** ** The settings and the dashboard *)

(** Modelled from the spec: the [admin_settings] table is declared outside
    the source; its columns are the ones [admin_settings()] writes. *)
Module Settings.
Record t : Type := mk {
  id : nat;
  doctor_whatsapp : string;
  upi_link : string;
  default_amount : string
}.
End Settings.

(** [admin_settings()], [POST /api/admin/settings], on a body that has its
    three keys: the statement it runs on the settings table. *)
Definition admin_settings (doctor_whatsapp upi_link default_amount : string)
    (table : list Settings.t) : list Settings.t * Response :=
  (sql_update (λ r, Settings.id r = 1)
              (λ r, Settings.mk (Settings.id r) doctor_whatsapp upi_link
                                default_amount)
              table,
   Success).

Record Stats : Type := mkStats {
  total : nat;
  reserved : nat;
  confirmed : nat;
  today : nat
}.

Record Dashboard : Type := mkDashboard {
  dash_appointments : list Appointment.t;
  dash_slots : list Slot.t;
  dash_settings : option Settings.t;
  dash_stats : Stats
}.

(** [SELECT COUNT( * ) FROM appointments WHERE status=?]. *)
Definition count_status (status : string) (appts : list Appointment.t) : nat :=
  length (filter (λ a, Appointment.status a = status) appts).

(** [admin_dashboard()], [GET /api/admin/dashboard].  [date_now] is what
    SQLite's [DATE('now')] gives. *)
Definition admin_dashboard (date_now : string) (settings : list Settings.t)
    (st : Store) : Dashboard :=
  mkDashboard
    (order_by_sort by_date_desc_time (appointments st))
    (order_by_sort by_date_start (slots st))
    (head (filter (λ r, Settings.id r = 1) settings))
    (mkStats
       (length (appointments st))
       (count_status "RESERVED" (appointments st))
       (count_status "CONFIRMED" (appointments st))
       (length (filter (λ a, Appointment.appointment_date a = date_now)
                       (appointments st)))).

(** ** The admin guard *)

(** What [jwt.decode] does with a token: it returns, or raises one of the
    two exceptions that [admin_required] catches. *)
Inductive JwtVerdict : Type :=
  | JwtValid
  | ExpiredSignatureError
  | InvalidTokenError.

(** What a guarded route sends. *)
Inductive Guarded (R : Type) : Type :=
  | Unauthorized (error : string)
      (* 401 {"error": error} *)
  | IndexError
      (* [1] on a list of one element *)
  | Passed (response : R).

Arguments Unauthorized {R} error.
Arguments IndexError {R}.
Arguments Passed {R} response.

(** [s.startswith(prefix)]. *)
Fixpoint startswith (prefix s : string) : bool :=
  match prefix, s with
  | EmptyString, _ => true
  | String a p, String b r => if decide (a = b) then startswith p r else false
  | String _ _, EmptyString => false
  end.

(** [s.split(" ", 1)]: the text before the first space and the text after
    it, or the whole text alone when it has no space. *)
Fixpoint split_space_once (s : string) : list string :=
  match s with
  | EmptyString => [EmptyString]
  | String c r =>
      if decide (c = " "%char) then [EmptyString; r]
      else match split_space_once r with
           | h :: t => String c h :: t
           | [] => [String c EmptyString]
           end
  end.

(** [admin_required(fn)]: the wrapper that the decorator puts around an
    admin route.  [authorization] is the header of the request, if it has
    one; [decode] is [jwt.decode] with the secret and the algorithm of the
    application. *)
Definition admin_required {R : Type} (decode : string → JwtVerdict)
    (fn : Store → Store * R) (authorization : option string) (st : Store)
    : Store * Guarded R :=
  let auth := default EmptyString authorization in
  if negb (startswith "Bearer " auth) then (st, Unauthorized "Missing token")
  else
    match split_space_once auth !! 1 with
    | None => (st, IndexError)
    | Some token =>
        match decode token with
        | ExpiredSignatureError => (st, Unauthorized "Token expired")
        | InvalidTokenError => (st, Unauthorized "Invalid token")
        | JwtValid => let '(st', r) := fn st in (st', Passed r)
        end
    end.

(** The number of booked slots. *)
Definition booked_count (ss : list Slot.t) : nat :=
  length (filter (λ s, Slot.is_booked s = true) ss).

(** The four handlers of [app.py] that write to the store. *)
Definition written_by_handler (st st' : Store) : Prop :=
  (∃ f today now, st' = (book f today now st).1) ∨
  (∃ code, st' = (cancel code st).1) ∨
  (∃ slot_date start_time end_time,
     st' = (add_slot slot_date start_time end_time st).1) ∨
  (∃ id status meeting_link remarks now,
     st' = (admin_update id status meeting_link remarks now st).1).

(** Two rows for the same booking: all columns but the ones staff and the
    lifecycle write ([status], [meeting_link], [admin_remarks],
    [updated_at]) agree. *)
Definition same_booking (a a' : Appointment.t) : Prop :=
  Appointment.id a' = Appointment.id a ∧
  Appointment.confirmation_code a' = Appointment.confirmation_code a ∧
  Appointment.patient_name a' = Appointment.patient_name a ∧
  Appointment.mobile a' = Appointment.mobile a ∧
  Appointment.address a' = Appointment.address a ∧
  Appointment.slot_id a' = Appointment.slot_id a ∧
  Appointment.appointment_date a' = Appointment.appointment_date a ∧
  Appointment.slot_time a' = Appointment.slot_time a ∧
  Appointment.created_at a' = Appointment.created_at a.

(** Two rows for the same time window: all columns but [is_booked] agree. *)
Definition same_window (s s' : Slot.t) : Prop :=
  Slot.id s' = Slot.id s ∧ Slot.slot_date s' = Slot.slot_date s ∧
  Slot.start_time s' = Slot.start_time s ∧ Slot.end_time s' = Slot.end_time s.

(** The appointment carries the date and the window of a slot of the
    table, the one it refers to. *)
Definition matches_slot (ss : list Slot.t) (a : Appointment.t) : Prop :=
  ∃ s, s ∈ ss ∧ Slot.id s = Appointment.slot_id a ∧
       Appointment.appointment_date a = Slot.slot_date s ∧
       Appointment.slot_time a
       = Slot.start_time s +:+ "-" +:+ Slot.end_time s.

(** The code of the k-th appointment: some date, then k. *)
Definition numbered (k : nat) (a : Appointment.t) : Prop :=
  Appointment.id a = k ∧
  ∃ d, Appointment.confirmation_code a
       = "MB-" +:+ strftime_Ymd d +:+ "-" +:+ zfill 4 (str k).

(** Two rows that differ in their status at most. *)
Definition same_but_status (a a' : Appointment.t) : Prop :=
  same_booking a a' ∧
  Appointment.meeting_link a' = Appointment.meeting_link a ∧
  Appointment.admin_remarks a' = Appointment.admin_remarks a ∧
  Appointment.updated_at a' = Appointment.updated_at a.

(** ** [book], statement by statement *)

(** How far a [book] request has come: it has arrived; it has fetched the
    slot (lines 121-124); it has counted the appointments (line 130); it has
    answered. *)
Inductive Progress : Type :=
  | Arrived
  | GotSlot (slot : Slot.t)
  | Counted (slot : Slot.t) (count : nat)
  | Finished (r : Response).

(** One statement of [book] on the store as it is when the statement runs:
    the [SELECT] of the slot, the [SELECT COUNT], and the [INSERT] and the
    [UPDATE] with their [commit].  The source opens no transaction and takes
    no lock around the three. *)
Definition book_step (f : BookForm.t) (today now : Datetime)
    (p : Progress) (st : Store) : Store * Progress :=
  match p with
  | Arrived =>
      match BookForm.slot_id f with
      | None => (st, Finished (KeyError "slot_id"))
      | Some slot_id =>
          match head (filter (is_free slot_id) (slots st)) with
          | None => (st, Finished SlotNotAvailable)
          | Some slot => (st, GotSlot slot)
          end
      end
  | GotSlot slot => (st, Counted slot (length (appointments st) + 1))
  | Counted slot count =>
      let code :=
        "MB-" +:+ strftime_Ymd today +:+ "-" +:+ zfill 4 (str count) in
      let now := isoformat now in
      match BookForm.patient_name f, BookForm.mobile f, BookForm.address f with
      | None, _, _ => (st, Finished (KeyError "patient_name"))
      | Some _, None, _ => (st, Finished (KeyError "mobile"))
      | Some _, Some _, None => (st, Finished (KeyError "address"))
      | Some patient_name, Some mobile, Some address =>
          let row :=
            Appointment.mk
              (next_rowid (Appointment.id <$> appointments st))
              code patient_name mobile address
              (Slot.id slot) (Slot.slot_date slot)
              (Slot.start_time slot +:+ "-" +:+ Slot.end_time slot)
              "RESERVED" None None now now in
          (mkStore
             (sql_update (λ s, Slot.id s = Slot.id slot)
                         (Slot.set_is_booked true) (slots st))
             (appointments st ++ [row]),
           Finished (Booked code))
      end
  | Finished r => (st, Finished r)
  end.

(** A [book] request with its two clock readings. *)
Record BookCall : Type := mkBookCall {
  call_form : BookForm.t;
  call_today : Datetime;
  call_now : Datetime
}.

Inductive Caller : Type := First | Second.

Global Instance caller_eq_dec : EqDecision Caller.
Proof. solve_decision. Defined.

(** Two [book] requests on one database: each entry of the schedule lets one
    of the two run its next statement. *)
Definition interleave_step (a b : BookCall)
    (state : Store * Progress * Progress) (who : Caller)
    : Store * Progress * Progress :=
  let '(st, pa, pb) := state in
  match who with
  | First =>
      let '(st', pa') :=
        book_step (call_form a) (call_today a) (call_now a) pa st in
      (st', pa', pb)
  | Second =>
      let '(st', pb') :=
        book_step (call_form b) (call_today b) (call_now b) pb st in
      (st', pa, pb')
  end.

Definition interleave (schedule : list Caller) (a b : BookCall) (st : Store)
    : Store * Progress * Progress :=
  foldl (interleave_step a b) (st, Arrived, Arrived) schedule.

(** A schedule runs both requests to their answer when it gives each of
    them its three statements. *)
Definition complete_schedule (schedule : list Caller) : Prop :=
  length (filter (λ c, c = First) schedule) = 3 ∧
  length (filter (λ c, c = Second) schedule) = 3.

(** The two schedules in which one request answers before the other
    arrives. *)
Definition first_then_second : list Caller :=
  [First; First; First; Second; Second; Second].

Definition second_then_first : list Caller :=
  [Second; Second; Second; First; First; First].

(** The second request fetches the slot before the first has written. *)
Definition overlapping : list Caller :=
  [First; Second; First; First; Second; Second].

(** Both requests fetch and count before either writes. *)
Definition in_lockstep : list Caller :=
  [First; Second; First; Second; First; Second].

(** What the claim asks of the two answers: one is a confirmation code and
    the other is "not available". *)
Definition one_booked (pa pb : Progress) : Prop :=
  (∃ code, pa = Finished (Booked code) ∧ pb = Finished SlotNotAvailable) ∨
  (∃ code, pa = Finished SlotNotAvailable ∧ pb = Finished (Booked code)).

(** Two patients ask for slot 1 at the same time. *)
Definition call_A : BookCall := mkBookCall form_A jan5 jan5.

Definition call_A2 : BookCall :=
  mkBookCall (BookForm.mk (Some 1) (Some "B") (Some "9000000002")
                          (Some "3 Lake View")) jan5 jan5.

(** A token checker for the examples: one token is good. *)
Definition demo_decode (token : string) : JwtVerdict :=
  if decide (token = "good.token") then JwtValid else InvalidTokenError.

(** * Properties *)

(** ** Text *)

Lemma append_cons (x : ascii) (a b : string) :
  String x a +:+ b = String x (a +:+ b).
Proof. reflexivity. Qed.

Lemma append_nil (b : string) : EmptyString +:+ b = b.
Proof. reflexivity. Qed.

Ltac unfold_append := rewrite ?append_cons, ?append_nil.

Lemma string_app_assoc (a b c : string) : (a +:+ b) +:+ c = a +:+ (b +:+ c).
Proof.
  induction a as [|x a IH]; unfold_append; [done | by rewrite IH].
Qed.

Lemma length_zeros n : String.length (zeros n) = n.
Proof. induction n as [|n IH]; simpl; [done | by rewrite IH]. Qed.

Lemma string_length_app (a b : string) :
  String.length (a +:+ b) = String.length a + String.length b.
Proof.
  induction a as [|x a IH]; unfold_append; simpl; [done | by rewrite IH].
Qed.

Lemma length_zfill width s :
  String.length (zfill width s) = width `max` String.length s.
Proof. unfold zfill. rewrite string_length_app, length_zeros. lia. Qed.

Lemma to_uint_not_nil n : Nat.to_uint n ≠ Decimal.Nil.
Proof.
  intros E. pose proof (Unsigned.of_to n) as H. rewrite E in H.
  simpl in H. subst n. discriminate E.
Qed.

Lemma str_digits n : str n = NilEmpty.string_of_uint (Nat.to_uint n).
Proof.
  unfold str, NilZero.string_of_uint.
  pose proof (to_uint_not_nil n). by destruct (Nat.to_uint n).
Qed.

Lemma has_dash_app (a b : string) :
  has_dash (a +:+ b) = has_dash a || has_dash b.
Proof.
  induction a as [|x a IH]; unfold_append; simpl; [done |].
  by destruct (decide (x = _)).
Qed.

Lemma has_dash_zeros n : has_dash (zeros n) = false.
Proof. induction n as [|n IH]; simpl; [done | exact IH]. Qed.

Lemma has_dash_uint d : has_dash (NilEmpty.string_of_uint d) = false.
Proof. induction d; simpl; done. Qed.

Lemma has_dash_zfill_str width n : has_dash (zfill width (str n)) = false.
Proof.
  unfold zfill.
  by rewrite has_dash_app, has_dash_zeros, str_digits, has_dash_uint.
Qed.

Lemma last_field_app (p t : string) :
  has_dash t = false → last_field (p +:+ String "-" t) = t.
Proof.
  intros Ht. induction p as [|x p IH]; unfold_append; simpl.
  - by rewrite Ht.
  - rewrite has_dash_app. simpl. rewrite orb_true_r. exact IH.
Qed.

Lemma uint_of_zeros n s :
  Nat.of_uint <$> NilEmpty.uint_of_string (zeros n +:+ s)
  = Nat.of_uint <$> NilEmpty.uint_of_string s.
Proof.
  induction n as [|n IH]; simpl; unfold_append; [done |]. simpl.
  destruct (NilEmpty.uint_of_string (zeros n +:+ s)) as [d|] eqn:E1;
    destruct (NilEmpty.uint_of_string s) as [d'|] eqn:E2;
    simpl in *; done.
Qed.

Lemma parse_zfill_str width n :
  Nat.of_uint <$> NilEmpty.uint_of_string (zfill width (str n)) = Some n.
Proof.
  unfold zfill. rewrite uint_of_zeros, str_digits, NilEmpty.usu. simpl.
  by rewrite Unsigned.of_to.
Qed.

(** The sequence number of a code is read back from it, whatever the date
    in front of it. *)
Lemma code_number_spec (date : string) (n : nat) :
  code_number ("MB-" +:+ date +:+ "-" +:+ zfill 4 (str n)) = Some n.
Proof.
  unfold code_number.
  replace ("MB-" +:+ date +:+ "-" +:+ zfill 4 (str n))
    with (("MB-" +:+ date) +:+ String "-" (zfill 4 (str n))).
  - rewrite last_field_app by apply has_dash_zfill_str. apply parse_zfill_str.
  - by rewrite string_app_assoc.
Qed.

(** Numbers below [10^4] print in at most four digits, numbers below
    [10^2] in at most two: checked on each of them. *)
Lemma str_length_bounded (digits bound : nat) :
  forallb (λ n, String.length (str n) <=? digits) (seq 0 bound) = true →
  ∀ n, n < bound → String.length (str n) ≤ digits.
Proof.
  intros Hall n Hn. rewrite forallb_forall in Hall.
  apply Nat.leb_le, Hall, in_seq. lia.
Qed.

Lemma str_length_4 n : n < 10000 → String.length (str n) ≤ 4.
Proof. apply str_length_bounded. vm_compute. reflexivity. Qed.

Lemma str_length_2 n : n < 100 → String.length (str n) ≤ 2.
Proof. apply str_length_bounded. vm_compute. reflexivity. Qed.

Lemma length_strftime_Ymd d :
  year d < 10000 → month d < 100 → day d < 100 →
  String.length (strftime_Ymd d) = 8.
Proof.
  intros Hy Hm Hd. unfold strftime_Ymd.
  rewrite !string_length_app, !length_zfill.
  pose proof (str_length_4 _ Hy). pose proof (str_length_2 _ Hm).
  pose proof (str_length_2 _ Hd). lia.
Qed.

(** The shape [MB-YYYYMMDD-NNNN]: sixteen characters, as long as the year
    has four digits and fewer than ten thousand appointments exist. *)
Lemma confirmation_code_length d n :
  year d < 10000 → month d < 100 → day d < 100 → n < 10000 →
  String.length ("MB-" +:+ strftime_Ymd d +:+ "-" +:+ zfill 4 (str n)) = 16.
Proof.
  intros Hy Hm Hd Hn.
  rewrite !string_length_app, length_strftime_Ymd, length_zfill by done.
  pose proof (str_length_4 _ Hn). simpl. lia.
Qed.

(** ** SQL statements *)

Section sql_update.
Context {A : Type} (cond : A → Prop) `{Hdec : !∀ r, Decision (cond r)}.
Context (set : A → A).

Lemma length_sql_update (l : list A) :
  length (sql_update cond set l) = length l.
Proof. unfold sql_update. by rewrite length_fmap. Qed.

Lemma lookup_sql_update (l : list A) k r :
  l !! k = Some r →
  sql_update cond set l !! k = Some (if decide (cond r) then set r else r).
Proof. intros Hk. unfold sql_update. by rewrite list_lookup_fmap, Hk. Qed.

Lemma elem_of_sql_update (l : list A) r' :
  r' ∈ sql_update cond set l ↔
  ∃ r, r ∈ l ∧ r' = if decide (cond r) then set r else r.
Proof.
  unfold sql_update. rewrite list_elem_of_fmap.
  split; intros (r & H1 & H2); exists r; auto.
Qed.

Lemma sql_update_none (l : list A) :
  (∀ r, r ∈ l → ¬ cond r) → sql_update cond set l = l.
Proof.
  intros Hno. unfold sql_update. rewrite <- (list_fmap_id l) at 2.
  apply list_fmap_ext. intros k r Hr.
  apply list_elem_of_lookup_2 in Hr. by rewrite decide_False by auto.
Qed.

Lemma sql_update_app (l1 l2 : list A) :
  sql_update cond set (l1 ++ l2)
  = sql_update cond set l1 ++ sql_update cond set l2.
Proof. unfold sql_update. by rewrite fmap_app. Qed.

(** When one row satisfies the condition, only that row is rewritten. *)
Lemma sql_update_one (l1 l2 : list A) r :
  cond r → (∀ x, x ∈ l1 ++ l2 → ¬ cond x) →
  sql_update cond set (l1 ++ r :: l2) = l1 ++ set r :: l2.
Proof.
  intros Hr Hx. rewrite sql_update_app.
  rewrite (sql_update_none l1) by (intros; apply Hx, elem_of_app; auto).
  f_equal. unfold sql_update at 1. rewrite fmap_cons. fold (sql_update cond set l2).
  rewrite decide_True by done. f_equal.
  apply sql_update_none. intros; apply Hx, elem_of_app; auto.
Qed.
End sql_update.

(** The rows that share a key with no other row. *)
Lemma unique_key_split {A K : Type} (key : A → K) (l : list A) (r : A) :
  NoDup (key <$> l) → r ∈ l →
  ∃ l1 l2, l = l1 ++ r :: l2 ∧ ∀ x, x ∈ l1 ++ l2 → key x ≠ key r.
Proof.
  intros Hnd Hr. apply list_elem_of_split in Hr as (l1 & l2 & ->).
  exists l1, l2. split; [done |]. intros x Hx Hk.
  rewrite fmap_app, fmap_cons in Hnd.
  apply NoDup_app in Hnd as (_ & Hdisj & Hnd2).
  apply NoDup_cons in Hnd2 as [Hnot _].
  apply elem_of_app in Hx as [Hx | Hx].
  - apply (Hdisj (key r)).
    + rewrite <- Hk. by apply list_elem_of_fmap_2.
    + apply elem_of_cons. by left.
  - apply Hnot. rewrite <- Hk. by apply list_elem_of_fmap_2.
Qed.

Lemma unique_key_eq {A K : Type} (key : A → K) (l : list A) (r r' : A) :
  NoDup (key <$> l) → r ∈ l → r' ∈ l → key r = key r' → r = r'.
Proof.
  intros Hnd Hr Hr' Hk.
  destruct (unique_key_split key l r Hnd Hr) as (l1 & l2 & -> & Hne).
  apply elem_of_app in Hr' as [H | H].
  - exfalso. apply (Hne r'); [apply elem_of_app; auto | done].
  - apply elem_of_cons in H as [H | H]; [done |].
    exfalso. apply (Hne r'); [apply elem_of_app; auto | done].
Qed.

Lemma max_list_snoc (l : list nat) (n : nat) :
  max_list (l ++ [n]) = max_list l `max` n.
Proof. induction l as [|x l IH]; simpl; [lia | rewrite IH; lia]. Qed.

Lemma max_list_seq n : max_list (seq 1 n) = n.
Proof.
  induction n as [|n IH]; [done |].
  rewrite seq_S, max_list_snoc, IH. lia.
Qed.

(** ** [book] *)

Lemma free_slot_found (i : nat) (ss : list Slot.t) (s : Slot.t) :
  s ∈ ss → Slot.id s = i → Slot.is_booked s = false →
  ∃ slot, head (filter (is_free i) ss) = Some slot ∧
          slot ∈ ss ∧ Slot.id slot = i ∧ Slot.is_booked slot = false.
Proof.
  intros Hs Hi Hb.
  assert (Hin : s ∈ filter (is_free i) ss)
    by (apply list_elem_of_filter; unfold is_free; auto).
  destruct (filter (is_free i) ss) as [|slot rest] eqn:E.
  - by apply elem_of_nil in Hin.
  - exists slot. split; [done |].
    assert (Hslot : slot ∈ filter (is_free i) ss)
      by (rewrite E; apply elem_of_cons; auto).
    apply list_elem_of_filter in Hslot as [[? ?] ?]. auto.
Qed.

Lemma no_free_slot (i : nat) (ss : list Slot.t) :
  (∀ s, s ∈ ss → Slot.id s = i → Slot.is_booked s = true) →
  head (filter (is_free i) ss) = None.
Proof.
  intros Hall. destruct (filter (is_free i) ss) as [|slot rest] eqn:E; [done |].
  assert (Hslot : slot ∈ filter (is_free i) ss)
    by (rewrite E; apply elem_of_cons; auto).
  apply list_elem_of_filter in Hslot as [[Hi Hb] Hin].
  rewrite (Hall slot Hin Hi) in Hb. discriminate.
Qed.

(** What a successful [book] did. *)
Lemma book_Booked_inv f today now st st' code :
  book f today now st = (st', Booked code) →
  ∃ i name mob addr slot,
    f = BookForm.mk (Some i) (Some name) (Some mob) (Some addr) ∧
    head (filter (is_free i) (slots st)) = Some slot ∧
    code = "MB-" +:+ strftime_Ymd today +:+ "-" +:+
           zfill 4 (str (length (appointments st) + 1)) ∧
    st' = mkStore
            (sql_update (λ s, Slot.id s = Slot.id slot)
                        (Slot.set_is_booked true) (slots st))
            (appointments st ++
               [Appointment.mk
                  (next_rowid (Appointment.id <$> appointments st))
                  code name mob addr (Slot.id slot) (Slot.slot_date slot)
                  (Slot.start_time slot +:+ "-" +:+ Slot.end_time slot)
                  "RESERVED" None None (isoformat now) (isoformat now)]).
Proof.
  unfold book. destruct f as [[i|] name mob addr]; simpl; [| discriminate].
  destruct (head (filter (is_free i) (slots st))) as [slot|] eqn:Hhead;
    [| discriminate].
  destruct name as [name|], mob as [mob|], addr as [addr|];
    try discriminate.
  intros [= <- <-]. by exists i, name, mob, addr, slot.
Qed.

Lemma book_found f today now st i name mob addr slot :
  f = BookForm.mk (Some i) (Some name) (Some mob) (Some addr) →
  head (filter (is_free i) (slots st)) = Some slot →
  book f today now st =
    (mkStore
       (sql_update (λ s, Slot.id s = Slot.id slot)
                   (Slot.set_is_booked true) (slots st))
       (appointments st ++
          [Appointment.mk
             (next_rowid (Appointment.id <$> appointments st))
             ("MB-" +:+ strftime_Ymd today +:+ "-" +:+
              zfill 4 (str (length (appointments st) + 1)))
             name mob addr (Slot.id slot) (Slot.slot_date slot)
             (Slot.start_time slot +:+ "-" +:+ Slot.end_time slot)
             "RESERVED" None None (isoformat now) (isoformat now)]),
     Booked ("MB-" +:+ strftime_Ymd today +:+ "-" +:+
             zfill 4 (str (length (appointments st) + 1)))).
Proof. intros -> Hhead. unfold book. simpl. by rewrite Hhead. Qed.

(** C2.  On a store in which the requested slot exists and is not booked,
    [book] answers with the confirmation code [MB-YYYYMMDD-NNNN]: the year,
    the month and the day of the booking, read off the clock and not off the
    slot, and the number of appointments counted with the new one, padded
    with zeros to four digits ([0001] for the first appointment ever).  It
    appends one appointment for that slot, RESERVED, whose [created_at] and
    [updated_at] both are the time of the booking, and it marks the slot
    booked, leaving the other slots as they are. *)
Theorem book_free_slot_reserves
    (f : BookForm.t) (today now : Datetime) (st : Store)
    (i : nat) (name mob addr : string) (slot : Slot.t) :
  f = BookForm.mk (Some i) (Some name) (Some mob) (Some addr) →
  slot ∈ slots st → Slot.id slot = i → Slot.is_booked slot = false →
  let booking_date :=
    zfill 4 (str (year today)) +:+ zfill 2 (str (month today)) +:+
    zfill 2 (str (day today)) in
  let booking_time :=
    zfill 4 (str (year now)) +:+ "-" +:+ zfill 2 (str (month now)) +:+ "-" +:+
    zfill 2 (str (day now)) +:+ "T" +:+ zfill 2 (str (hour now)) +:+ ":" +:+
    zfill 2 (str (minute now)) +:+ ":" +:+ zfill 2 (str (second now)) +:+
    (if decide (microsecond now = 0) then EmptyString
     else "." +:+ zfill 6 (str (microsecond now))) in
  ∃ st' row,
    book f today now st =
      (st', Booked ("MB-" +:+ booking_date +:+ "-" +:+
                    zfill 4 (str (length (appointments st) + 1)))) ∧
    (appointments st = [] →
       (book f today now st).2 = Booked ("MB-" +:+ booking_date +:+ "-0001")) ∧
    appointments st' = appointments st ++ [row] ∧
    Appointment.confirmation_code row =
      "MB-" +:+ booking_date +:+ "-" +:+
      zfill 4 (str (length (appointments st) + 1)) ∧
    Appointment.patient_name row = name ∧
    Appointment.mobile row = mob ∧
    Appointment.address row = addr ∧
    Appointment.slot_id row = i ∧
    Appointment.status row = "RESERVED" ∧
    Appointment.created_at row = booking_time ∧
    Appointment.updated_at row = booking_time ∧
    length (slots st') = length (slots st) ∧
    (∀ s', s' ∈ slots st' → Slot.id s' = i → Slot.is_booked s' = true) ∧
    (∀ k s, slots st !! k = Some s →
       ∃ s', slots st' !! k = Some s' ∧ same_window s s' ∧
             Slot.is_booked s'
             = if decide (Slot.id s = i) then true else Slot.is_booked s).
Proof.
  intros Hf Hin Hid Hfree booking_date booking_time.
  destruct (free_slot_found i (slots st) slot Hin Hid Hfree)
    as (slot0 & Hhead & _ & Hid0 & _).
  rewrite (book_found f today now st i name mob addr slot0 Hf Hhead).
  rewrite Hid0. eexists _, _. split; [reflexivity |].
  repeat split; simpl; try reflexivity.
  - intros ->. reflexivity.
  - apply length_sql_update.
  - intros s' Hs' His'.
    apply elem_of_sql_update in Hs' as (s & _ & ->).
    destruct (decide (Slot.id s = i)) as [|Hne]; [done |]. by destruct Hne.
  - intros k s Hk. eexists. rewrite (lookup_sql_update _ _ _ _ _ Hk).
    split; [reflexivity |]. by destruct (decide (Slot.id s = i)).
Qed.

(** C3.  On a store in which the requested slot does not exist or is booked,
    [book] answers that the slot is not available and leaves every slot and
    every appointment as it was. *)
Theorem book_unavailable_unchanged
    (f : BookForm.t) (today now : Datetime) (st : Store) (i : nat) :
  BookForm.slot_id f = Some i →
  (∀ s, s ∈ slots st → Slot.id s = i → Slot.is_booked s = true) →
  book f today now st = (st, SlotNotAvailable).
Proof.
  intros Hf Hall. unfold book. rewrite Hf.
  by rewrite (no_free_slot i (slots st) Hall).
Qed.

(** C10.  The appointment that a successful [book] inserts carries the date
    of the booked slot as its [appointment_date] and the start time, a hyphen
    and the end time of that slot as its [slot_time]. *)
Theorem book_copies_slot_window
    (f : BookForm.t) (today now : Datetime) (st st' : Store)
    (code : string) (slot : Slot.t) :
  NoDup (Slot.id <$> slots st) →
  book f today now st = (st', Booked code) →
  slot ∈ slots st → BookForm.slot_id f = Some (Slot.id slot) →
  ∃ row,
    appointments st' = appointments st ++ [row] ∧
    Appointment.slot_id row = Slot.id slot ∧
    Appointment.appointment_date row = Slot.slot_date slot ∧
    Appointment.slot_time row =
      Slot.start_time slot +:+ "-" +:+ Slot.end_time slot.
Proof.
  intros Hnd Hbook Hin Hreq.
  apply book_Booked_inv in Hbook
    as (i & name & mob & addr & slot0 & -> & Hhead & _ & ->).
  simpl in Hreq. injection Hreq as ->.
  apply head_Some_elem_of, list_elem_of_filter in Hhead as [[Hid _] Hin0].
  assert (slot0 = slot) as -> by (by apply (unique_key_eq Slot.id (slots st))).
  eexists. split; [reflexivity |]. by simpl.
Qed.

(** C9, as the code has it.  [book] looks at no value; only a missing key
    stops it, and before it writes.  Without [slot_id] the answer is the
    unhandled [KeyError] of that key.  With [slot_id], and no free slot of
    that rowid, the answer is that the slot is not available, whatever else
    the body has or lacks.  With a free slot, the answer is the [KeyError]
    of the first of [patient_name], [mobile], [address] that is missing.  In
    all these cases the store is as it was.  With the four keys present and
    the slot free the body is booked, whatever the texts are, the empty text
    among them. *)
Theorem book_rejects_only_missing_keys
    (f : BookForm.t) (today now : Datetime) (st : Store) :
  (lacks_key f →
     (book f today now st).1 = st ∧
     ((book f today now st).2 = SlotNotAvailable ∨
      ∃ key, (book f today now st).2 = KeyError key)) ∧
  (BookForm.slot_id f = None →
     book f today now st = (st, KeyError "slot_id")) ∧
  (∀ i, BookForm.slot_id f = Some i →
     (∀ s, s ∈ slots st → Slot.id s = i → Slot.is_booked s = true) →
     book f today now st = (st, SlotNotAvailable)) ∧
  (∀ i s, BookForm.slot_id f = Some i → s ∈ slots st → is_free i s →
     (BookForm.patient_name f = None →
        book f today now st = (st, KeyError "patient_name")) ∧
     (∀ name, BookForm.patient_name f = Some name →
        BookForm.mobile f = None →
        book f today now st = (st, KeyError "mobile")) ∧
     (∀ name mob, BookForm.patient_name f = Some name →
        BookForm.mobile f = Some mob → BookForm.address f = None →
        book f today now st = (st, KeyError "address")) ∧
     (∀ name mob addr, BookForm.patient_name f = Some name →
        BookForm.mobile f = Some mob → BookForm.address f = Some addr →
        ∃ st' code row,
          book f today now st = (st', Booked code) ∧
          appointments st' = appointments st ++ [row] ∧
          Appointment.patient_name row = name ∧
          Appointment.mobile row = mob ∧
          Appointment.address row = addr)).
Proof.
  split; [| split; [| split]].
  - unfold lacks_key, book.
    destruct f as [[i|] name mob addr]; simpl; [| by eauto].
    destruct (head (filter (is_free i) (slots st))); [| by eauto].
    destruct name as [name|], mob as [mob|], addr as [addr|];
      intros [H | [H | [H | H]]]; try discriminate H; simpl; eauto.
  - intros Hno. unfold book. by rewrite Hno.
  - intros i Hi Hall. unfold book. rewrite Hi.
    by rewrite (no_free_slot i (slots st) Hall).
  - intros i s Hi Hs [Hid Hfree].
    destruct (free_slot_found i (slots st) s Hs Hid Hfree)
      as (slot0 & Hhead & _).
    unfold book. rewrite Hi, Hhead. repeat split.
    + by intros ->.
    + by intros name -> ->.
    + by intros name mob -> -> ->.
    + intros name mob addr -> -> ->. eexists _, _, _.
      split; [reflexivity |]. by simpl.
Qed.

(** ** [cancel] *)

Lemma filter_none {A : Type} (P : A → Prop) `{!∀ x, Decision (P x)}
    (l : list A) :
  (∀ x, x ∈ l → ¬ P x) → filter P l = [].
Proof.
  induction l as [|x l IH]; intros Hno; [done |].
  rewrite filter_cons_False by (apply Hno, elem_of_cons; auto).
  apply IH. intros y Hy. apply Hno, elem_of_cons. auto.
Qed.

Lemma filter_sql_update_same {A : Type} (P : A → Prop)
    `{!∀ x, Decision (P x)} (set : A → A) (l : list A) :
  (∀ r, P r → P (set r)) →
  filter P (sql_update P set l) = set <$> filter P l.
Proof.
  intros Hset. induction l as [|x l IH]; [done |].
  unfold sql_update in *. rewrite fmap_cons.
  destruct (decide (P x)) as [Hx | Hx].
  - rewrite !filter_cons_True by auto. rewrite fmap_cons. by f_equal.
  - by rewrite !filter_cons_False by auto.
Qed.

(** With unique codes, the row that [cancel] fetches is the row that carries
    the code. *)
Lemma fetch_by_code (appts : list Appointment.t) (a : Appointment.t) :
  NoDup (Appointment.confirmation_code <$> appts) → a ∈ appts →
  filter (λ b, Appointment.confirmation_code b
               = Appointment.confirmation_code a) appts = [a].
Proof.
  intros Hnd Ha.
  destruct (unique_key_split Appointment.confirmation_code appts a Hnd Ha)
    as (l1 & l2 & -> & Hne).
  rewrite filter_app, filter_cons_True by done.
  rewrite !filter_none; [done | |];
    intros x Hx; apply Hne, elem_of_app; auto.
Qed.

Lemma cancel_response code st : (cancel code st).2 = Success.
Proof.
  unfold cancel. destruct (head _) as [a|]; [| done].
  by destruct (decide _).
Qed.

Lemma cancel_idempotent code st :
  (cancel code (cancel code st).1).1 = (cancel code st).1.
Proof.
  unfold cancel at 2 3.
  destruct (head (filter _ (appointments st))) as [a|] eqn:Hhead.
  - destruct (decide (Appointment.status a = "RESERVED")) as [Hres | Hres];
      simpl.
    + unfold cancel. simpl.
      rewrite filter_sql_update_same by done.
      apply head_Some in Hhead as [rest ->]. by simpl.
    + unfold cancel. rewrite Hhead. by rewrite decide_False.
  - simpl. unfold cancel. by rewrite Hhead.
Qed.

(** C4.  [cancel] always answers with success.  It changes nothing when no
    appointment carries the code, or when the one that does is not RESERVED;
    when that appointment is RESERVED, [cancel] sets its status to CANCELLED,
    its other columns staying as they are, and the [is_booked] flag of its
    slot to false, and leaves every other row as it was.  A second [cancel]
    of the same code ends in the store of the first. *)
Theorem cancel_spec (code : string) (st : Store) :
  (cancel code st).2 = Success ∧
  ((∀ a, a ∈ appointments st → Appointment.confirmation_code a ≠ code) →
     (cancel code st).1 = st) ∧
  (NoDup (Appointment.confirmation_code <$> appointments st) →
   ∀ a, a ∈ appointments st → Appointment.confirmation_code a = code →
     (Appointment.status a ≠ "RESERVED" → (cancel code st).1 = st) ∧
     (Appointment.status a = "RESERVED" →
        (∀ k b, appointments st !! k = Some b →
           appointments (cancel code st).1 !! k =
             Some (if decide (b = a)
                   then Appointment.set_status "CANCELLED" a else b)) ∧
        (∀ k s, slots st !! k = Some s →
           slots (cancel code st).1 !! k =
             Some (if decide (Slot.id s = Appointment.slot_id a)
                   then Slot.set_is_booked false s else s)) ∧
        (∀ s, s ∈ slots (cancel code st).1 →
           Slot.id s = Appointment.slot_id a → Slot.is_booked s = false) ∧
        (∀ k, appointments st !! k = Some a →
           ∃ a', appointments (cancel code st).1 !! k = Some a' ∧
                 Appointment.status a' = "CANCELLED" ∧
                 same_but_status a a') ∧
        (∀ k s, slots st !! k = Some s →
           Slot.id s = Appointment.slot_id a →
           ∃ s', slots (cancel code st).1 !! k = Some s' ∧
                 Slot.is_booked s' = false ∧ same_window s s'))) ∧
  (cancel code (cancel code st).1).1 = (cancel code st).1.
Proof.
  split; [apply cancel_response |].
  split; [| split; [| apply cancel_idempotent]].
  - intros Hno. unfold cancel. rewrite filter_none; [done |]. intros a Ha.
    by apply Hno.
  - intros Hnd a Ha <-. unfold cancel.
    rewrite (fetch_by_code _ a Hnd Ha). simpl. split.
    + intros Hres. by rewrite decide_False.
    + intros Hres. rewrite decide_True by done. simpl.
      split; [| split; [| split; [| split]]].
      * intros k b Hk. rewrite (lookup_sql_update _ _ _ _ _ Hk). f_equal.
        destruct (decide (Appointment.confirmation_code b = _)) as [Hc | Hc].
        -- assert (b = a) as ->
             by (eapply (unique_key_eq Appointment.confirmation_code);
                 eauto using list_elem_of_lookup_2).
           by rewrite decide_True.
        -- rewrite decide_False; [done |]. by intros ->.
      * intros k s Hk. by rewrite (lookup_sql_update _ _ _ _ _ Hk).
      * intros s Hs Hid. apply elem_of_sql_update in Hs as (s0 & _ & ->).
        destruct (decide (Slot.id s0 = _)) as [|Hne]; [done |].
        by destruct Hne.
      * intros k Hk. eexists. rewrite (lookup_sql_update _ _ _ _ _ Hk).
        rewrite decide_True by done. split; [reflexivity |].
        split; [reflexivity |]. by repeat split.
      * intros k s Hk Hid. eexists.
        rewrite (lookup_sql_update _ _ _ _ _ Hk).
        rewrite decide_True by done. split; [reflexivity |].
        split; [reflexivity |]. by repeat split.
Qed.

(** ** [admin_update] *)

(** C6.  For an appointment of the ledger, [admin_update] with its rowid
    writes the given status, meeting link and remarks over the old ones,
    whatever the old and the new status are, and stamps [updated_at] with
    the time of the update; the other columns of the row, the rows of other
    rowids and all slots are as before. *)
Theorem admin_update_overwrites
    (id : nat) (status : string) (meeting_link remarks : option string)
    (now : Datetime) (st : Store) (k : nat) (a : Appointment.t) :
  appointments st !! k = Some a → Appointment.id a = id →
  let st' := (admin_update id status meeting_link remarks now st).1 in
  (admin_update id status meeting_link remarks now st).2 = Success ∧
  (∃ a', appointments st' !! k = Some a' ∧
     Appointment.status a' = status ∧
     Appointment.meeting_link a' = meeting_link ∧
     Appointment.admin_remarks a' = remarks ∧
     Appointment.updated_at a' = isoformat now ∧
     Appointment.id a' = Appointment.id a ∧
     Appointment.confirmation_code a' = Appointment.confirmation_code a ∧
     Appointment.patient_name a' = Appointment.patient_name a ∧
     Appointment.mobile a' = Appointment.mobile a ∧
     Appointment.address a' = Appointment.address a ∧
     Appointment.slot_id a' = Appointment.slot_id a ∧
     Appointment.appointment_date a' = Appointment.appointment_date a ∧
     Appointment.slot_time a' = Appointment.slot_time a ∧
     Appointment.created_at a' = Appointment.created_at a) ∧
  length (appointments st') = length (appointments st) ∧
  (∀ j b, appointments st !! j = Some b → Appointment.id b ≠ id →
     appointments st' !! j = Some b) ∧
  slots st' = slots st.
Proof.
  intros Hk Hid. simpl. split; [done |]. split; [| split; [| split]].
  - eexists. rewrite (lookup_sql_update _ _ _ _ _ Hk).
    rewrite decide_True by done. split; [reflexivity |]. by simpl.
  - apply length_sql_update.
  - intros j b Hj Hne. rewrite (lookup_sql_update _ _ _ _ _ Hj).
    by rewrite decide_False.
  - done.
Qed.

(** ** Primary keys and codes in every reachable store *)

Lemma keeps_identity_update (cond : Appointment.t → Prop)
    `{!∀ r, Decision (cond r)} (set : Appointment.t → Appointment.t) :
  keeps_identity set →
  keeps_identity (λ r, if decide (cond r) then set r else r).
Proof. intros Hset a. destruct (decide (cond a)); [apply Hset | done]. Qed.

Lemma keeps_identity_set_status st : keeps_identity (Appointment.set_status st).
Proof. by intros a. Qed.

Lemma keeps_identity_set_admin st link remarks now :
  keeps_identity (Appointment.set_admin st link remarks now).
Proof. by intros a. Qed.

Lemma slot_ids_sql_update (cond : Slot.t → Prop) `{!∀ r, Decision (cond r)}
    (b : bool) (ss : list Slot.t) :
  Slot.id <$> sql_update cond (Slot.set_is_booked b) ss = Slot.id <$> ss.
Proof.
  unfold sql_update. rewrite <- list_fmap_compose.
  apply list_fmap_ext. intros k s _. simpl. by destruct (decide (cond s)).
Qed.

Lemma consistent_rewrite (st : Store) (ss : list Slot.t)
    (h : Appointment.t → Appointment.t) :
  consistent st → keeps_identity h →
  Slot.id <$> ss = Slot.id <$> slots st →
  consistent (mkStore ss (h <$> appointments st)).
Proof.
  intros [Hs Ha Hc Hr] Hh Hss.
  assert (Hlen : length ss = length (slots st))
    by (rewrite <- (length_fmap Slot.id ss), Hss; apply length_fmap).
  split; simpl.
  - by rewrite Hss, Hlen.
  - rewrite length_fmap, <- Ha, <- list_fmap_compose.
    apply list_fmap_ext. intros k a _. apply Hh.
  - intros k a' Hk. rewrite list_lookup_fmap in Hk.
    destruct (appointments st !! k) as [a|] eqn:E; [| done].
    simpl in Hk. injection Hk as <-.
    destruct (Hh a) as (_ & -> & _). by apply Hc.
  - intros a' Ha'. apply list_elem_of_fmap in Ha' as (a & -> & Hin).
    destruct (Hh a) as (_ & _ & ->). rewrite Hss. by apply Hr.
Qed.

Lemma consistent_empty : consistent empty_store.
Proof.
  split; simpl; try done.
  intros a Ha. by apply elem_of_nil in Ha.
Qed.

Lemma consistent_book f today now st :
  consistent st → consistent (book f today now st).1.
Proof.
  intros Hst. destruct (book f today now st) as [st' r] eqn:Hbook.
  destruct r; simpl;
    try (unfold book in Hbook;
         destruct f as [[i|] name mob addr]; simpl in Hbook;
         [destruct (head (filter (is_free i) (slots st)));
          [destruct name, mob, addr |] |];
         by simplify_eq).
  apply book_Booked_inv in Hbook
    as (i & name & mob & addr & slot & -> & Hhead & -> & ->).
  apply head_Some_elem_of, list_elem_of_filter in Hhead as [_ Hin].
  destruct Hst as [Hs Ha Hc Hr]. split; simpl.
  - by rewrite slot_ids_sql_update, length_sql_update.
  - rewrite fmap_app, length_app, Ha. simpl.
    unfold next_rowid. rewrite max_list_seq.
    by rewrite Nat.add_1_r, seq_S.
  - intros k a Hk. apply lookup_app_Some in Hk as [Hk | [Hlen Hk]].
    + by apply Hc.
    + apply list_lookup_singleton_Some in Hk as [Hk <-]. simpl.
      rewrite code_number_spec. f_equal. lia.
  - intros a Ha'. rewrite slot_ids_sql_update.
    apply elem_of_app in Ha' as [Ha' | Ha']; [by apply Hr |].
    apply list_elem_of_singleton in Ha' as ->. simpl.
    by apply list_elem_of_fmap_2.
Qed.

Lemma consistent_cancel code st :
  consistent st → consistent (cancel code st).1.
Proof.
  intros Hst. unfold cancel. destruct (head _) as [a|]; [| done].
  destruct (decide _); [| done]. simpl.
  apply consistent_rewrite; [done | |].
  - apply keeps_identity_update, keeps_identity_set_status.
  - apply slot_ids_sql_update.
Qed.

Lemma consistent_add_slot slot_date start_time end_time st :
  consistent st → consistent (add_slot slot_date start_time end_time st).1.
Proof.
  intros [Hs Ha Hc Hr]. split; simpl; try done.
  - rewrite fmap_app, length_app, Hs. simpl.
    unfold next_rowid. rewrite max_list_seq.
    by rewrite Nat.add_1_r, seq_S.
  - intros a Hin. rewrite fmap_app. apply elem_of_app. left. by apply Hr.
Qed.

Lemma consistent_admin_update id status link remarks now st :
  consistent st → consistent (admin_update id status link remarks now st).1.
Proof.
  intros Hst. simpl. apply consistent_rewrite; [done | | done].
  apply keeps_identity_update, keeps_identity_set_admin.
Qed.

Lemma consistent_expire_one st b : consistent st → consistent (expire_one st b).
Proof.
  intros Hst. unfold expire_one. destruct (decide _); [| done].
  apply consistent_rewrite; [done | |].
  - apply keeps_identity_update, keeps_identity_set_status.
  - apply slot_ids_sql_update.
Qed.

Lemma consistent_sweep age threshold st :
  consistent st → consistent (auto_expire_reserved age threshold st).
Proof.
  unfold auto_expire_reserved.
  generalize (filter (is_stale age threshold) (appointments st)) as selected.
  intros selected. revert st.
  induction selected as [|b selected IH]; intros st Hst; [done |].
  simpl. by apply IH, consistent_expire_one.
Qed.

Lemma consistent_run op st : consistent st → consistent (run op st).
Proof.
  intros Hst. destruct op; unfold run.
  - by apply consistent_book.
  - by apply consistent_cancel.
  - by apply consistent_add_slot.
  - by apply consistent_admin_update.
  - by apply consistent_sweep.
Qed.

Lemma reachable_by_consistent allowed st :
  reachable_by allowed st → consistent st.
Proof.
  induction 1; [apply consistent_empty | by apply consistent_run].
Qed.

Lemma consistent_codes_NoDup st :
  consistent st → NoDup (Appointment.confirmation_code <$> appointments st).
Proof.
  intros [_ _ Hc _]. apply NoDup_alt. intros i j code Hi Hj.
  apply list_lookup_fmap_Some in Hi as (a & -> & Ha).
  apply list_lookup_fmap_Some in Hj as (b & Heq & Hb).
  apply Hc in Ha. apply Hc in Hb. rewrite Heq in Ha.
  rewrite Ha in Hb. by injection Hb.
Qed.

Lemma consistent_ids_NoDup st :
  consistent st → NoDup (Appointment.id <$> appointments st).
Proof. intros [_ Ha _ _]. rewrite Ha. apply NoDup_seq. Qed.

Lemma consistent_slot_ids_NoDup st :
  consistent st → NoDup (Slot.id <$> slots st).
Proof. intros [Hs _ _ _]. rewrite Hs. apply NoDup_seq. Qed.


(** ** The slot invariant *)

Lemma active_count_app j (l1 l2 : list Appointment.t) :
  active_count j (l1 ++ l2) = active_count j l1 + active_count j l2.
Proof. unfold active_count. by rewrite filter_app, length_app. Qed.

Lemma active_count_cons j (a : Appointment.t) (l : list Appointment.t) :
  active_count j (a :: l)
  = (if decide (holds_slot j a) then 1 else 0) + active_count j l.
Proof.
  unfold active_count. rewrite filter_cons.
  by destruct (decide (holds_slot j a)).
Qed.

Lemma active_count_split j (l1 l2 : list Appointment.t) (a : Appointment.t) :
  active_count j (l1 ++ a :: l2)
  = active_count j l1 + (if decide (holds_slot j a) then 1 else 0)
    + active_count j l2.
Proof. rewrite active_count_app, active_count_cons. lia. Qed.

Lemma active_count_snoc j (l : list Appointment.t) (a : Appointment.t) :
  active_count j (l ++ [a])
  = active_count j l + (if decide (holds_slot j a) then 1 else 0).
Proof.
  rewrite active_count_app, active_count_cons.
  change (active_count j []) with 0. lia.
Qed.

Lemma active_count_fmap j (h : Appointment.t → Appointment.t)
    (l : list Appointment.t) :
  (∀ a, a ∈ l → holds_slot j (h a) ↔ holds_slot j a) →
  active_count j (h <$> l) = active_count j l.
Proof.
  induction l as [|a l IH]; intros Hh; [done |].
  rewrite fmap_cons, !active_count_cons.
  rewrite IH by (intros b Hb; apply Hh, elem_of_cons; auto).
  assert (Ha : holds_slot j (h a) ↔ holds_slot j a)
    by (apply Hh, elem_of_cons; auto).
  destruct (decide (holds_slot j (h a))), (decide (holds_slot j a));
    tauto || done.
Qed.

Lemma active_count_none j (l : list Appointment.t) :
  (∀ a, a ∈ l → Appointment.slot_id a ≠ j) → active_count j l = 0.
Proof.
  intros Hno. unfold active_count. rewrite filter_none; [done |].
  intros a Ha [Hj _]. by apply (Hno a).
Qed.

Lemma cancelled_not_active : ¬ is_active "CANCELLED".
Proof. by intros [H | H]. Qed.

Lemma expired_not_active : ¬ is_active "EXPIRED".
Proof. by intros [H | H]. Qed.

Lemma reserved_active : is_active "RESERVED".
Proof. by left. Qed.

(** The step that [cancel] and the sweep share: one active row becomes
    inactive and its slot is released. *)
Lemma release_keeps_accounting (ss : list Slot.t)
    (l1 l2 : list Appointment.t) (r r' : Appointment.t) :
  slot_accounting (mkStore ss (l1 ++ r :: l2)) →
  is_active (Appointment.status r) →
  ¬ is_active (Appointment.status r') →
  Appointment.slot_id r' = Appointment.slot_id r →
  slot_accounting
    (mkStore
       (sql_update (λ s, Slot.id s = Appointment.slot_id r)
                   (Slot.set_is_booked false) ss)
       (l1 ++ r' :: l2)).
Proof.
  intros Hacc Hr Hr' Hslot s' Hs'. simpl in *.
  apply elem_of_sql_update in Hs' as (s & Hs & ->).
  specialize (Hacc s Hs). simpl in Hacc.
  rewrite active_count_split in Hacc. rewrite active_count_split.
  destruct (decide (Slot.id s = Appointment.slot_id r)) as [Hid | Hid]; simpl.
  - rewrite decide_True in Hacc by (by split).
    rewrite decide_False by (by intros [_ ?]).
    destruct (Slot.is_booked s); lia.
  - rewrite decide_False in Hacc by (by intros [? _]).
    rewrite decide_False by (intros [? _]; congruence).
    done.
Qed.

Lemma accounting_empty : slot_accounting empty_store.
Proof. intros s Hs. by apply elem_of_nil in Hs. Qed.

Lemma accounting_book f today now st :
  slot_accounting st → slot_accounting (book f today now st).1.
Proof.
  intros Hacc. destruct (book f today now st) as [st' r] eqn:Hbook.
  destruct r; simpl;
    try (unfold book in Hbook;
         destruct f as [[i|] name mob addr]; simpl in Hbook;
         [destruct (head (filter (is_free i) (slots st)));
          [destruct name, mob, addr |] |];
         by simplify_eq).
  apply book_Booked_inv in Hbook
    as (i & name & mob & addr & slot & -> & Hhead & -> & ->).
  apply head_Some_elem_of, list_elem_of_filter in Hhead as [[Hi Hfree] Hin].
  pose proof (Hacc slot Hin) as Hslot. rewrite Hfree in Hslot.
  intros s' Hs'. simpl in *.
  apply elem_of_sql_update in Hs' as (s & Hs & ->).
  rewrite active_count_snoc.
  destruct (decide (Slot.id s = Slot.id slot)) as [Hid | Hid]; simpl.
  - rewrite Hid, Hslot.
    by rewrite decide_True by (split; [done | apply reserved_active]).
  - rewrite decide_False by (intros [? _]; simpl in *; congruence).
    rewrite (Hacc s Hs). lia.
Qed.

Lemma accounting_cancel code st :
  consistent st → slot_accounting st → slot_accounting (cancel code st).1.
Proof.
  intros Hst Hacc. unfold cancel.
  destruct (head _) as [a|] eqn:Hhead; [| done].
  destruct (decide (Appointment.status a = "RESERVED")) as [Hres | Hres];
    [| done].
  simpl.
  apply head_Some_elem_of, list_elem_of_filter in Hhead as [<- Hin].
  destruct (unique_key_split Appointment.confirmation_code _ a
              (consistent_codes_NoDup st Hst) Hin) as (l1 & l2 & Heq & Hne).
  destruct st as [ss appts]. simpl in *. subst appts.
  rewrite sql_update_one by done.
  apply release_keeps_accounting; try done.
  - rewrite Hres. apply reserved_active.
  - apply cancelled_not_active.
Qed.

Lemma accounting_add_slot slot_date start_time end_time st :
  consistent st → slot_accounting st →
  slot_accounting (add_slot slot_date start_time end_time st).1.
Proof.
  intros [Hs _ _ Hr] Hacc s Hin. simpl in *.
  apply elem_of_app in Hin as [Hin | Hin]; [by apply Hacc |].
  apply list_elem_of_singleton in Hin as ->. simpl.
  apply active_count_none. intros a Ha Heq.
  apply Hr in Ha. rewrite Heq, Hs in Ha.
  unfold next_rowid in Ha. rewrite max_list_seq in Ha.
  apply elem_of_seq in Ha. lia.
Qed.

Lemma accounting_admin_update id status link remarks now st :
  keeps_activity st (UpdateStatus id status link remarks now) →
  slot_accounting st →
  slot_accounting (admin_update id status link remarks now st).1.
Proof.
  intros Hkeep Hacc s Hs. simpl in *.
  unfold sql_update. rewrite active_count_fmap; [by apply Hacc |].
  intros a Ha. destruct (decide (Appointment.id a = id)) as [Hid | Hid];
    [| done].
  unfold holds_slot. simpl. by rewrite (Hkeep a Ha Hid).
Qed.

Lemma accounting_expire_one st b :
  consistent st → same_slot_as_stored st b → slot_accounting st →
  slot_accounting (expire_one st b).
Proof.
  intros Hst Hsame Hacc. unfold expire_one.
  destruct (decide _) as [Hex | Hex]; [| done].
  apply Exists_exists in Hex as (r & Hin & Hid & Hres).
  destruct (unique_key_split Appointment.id _ r
              (consistent_ids_NoDup st Hst) Hin) as (l1 & l2 & Heq & Hne).
  rewrite <- (Hsame r Hin Hid).
  destruct st as [ss appts]. simpl in *. subst appts.
  rewrite sql_update_one.
  - apply release_keeps_accounting; try done.
    + rewrite Hres. apply reserved_active.
    + apply expired_not_active.
  - by split.
  - intros x Hx [Hxid _]. apply (Hne x Hx). congruence.
Qed.

Lemma same_slot_expire_one st b c :
  same_slot_as_stored st c → same_slot_as_stored (expire_one st b) c.
Proof.
  intros Hsame. unfold expire_one. destruct (decide _); [| done].
  intros r' Hr' Hid. simpl in Hr'.
  apply elem_of_sql_update in Hr' as (r & Hr & ->).
  destruct (decide (still_reserved _ r)); simpl in *; by apply (Hsame r).
Qed.

Lemma accounting_sweep_rows (selected : list Appointment.t) (st : Store) :
  consistent st → slot_accounting st →
  (∀ b, b ∈ selected → same_slot_as_stored st b) →
  slot_accounting (foldl expire_one st selected).
Proof.
  revert st. induction selected as [|b selected IH];
    intros st Hst Hacc Hsame; [done |].
  simpl. apply IH.
  - by apply consistent_expire_one.
  - apply accounting_expire_one; [done | | done].
    apply Hsame, elem_of_cons; auto.
  - intros c Hc. apply same_slot_expire_one, Hsame, elem_of_cons; auto.
Qed.

Lemma accounting_sweep age threshold st :
  consistent st → slot_accounting st →
  slot_accounting (auto_expire_reserved age threshold st).
Proof.
  intros Hst Hacc. apply accounting_sweep_rows; [done | done |].
  intros b Hb r Hr Hid. apply list_elem_of_filter in Hb as [_ Hb].
  f_equal. by apply (unique_key_eq Appointment.id (appointments st));
    [apply consistent_ids_NoDup | | |].
Qed.

Lemma accounting_run op st :
  consistent st → keeps_activity st op → slot_accounting st →
  slot_accounting (run op st).
Proof.
  intros Hst Hkeep Hacc. destruct op; unfold run.
  - by apply accounting_book.
  - by apply accounting_cancel.
  - by apply accounting_add_slot.
  - by apply accounting_admin_update.
  - by apply accounting_sweep.
Qed.

Lemma reachable_accounting st :
  reachable_by keeps_activity st → slot_accounting st.
Proof.
  induction 1 as [|st op Hreach IH Hkeep]; [apply accounting_empty |].
  apply accounting_run; [| done | done].
  by eapply reachable_by_consistent.
Qed.

(** C1, as the code has it.  In every store produced by [book], [cancel],
    the expiry sweep, [add_slot] and those status updates that leave the
    appointment on its side of the line between active (RESERVED or
    CONFIRMED) and inactive, a slot is booked if and only if exactly one
    active appointment refers to it, and no active appointment refers to a
    slot that is not booked. *)
Theorem reachable_slot_invariant (st : Store) :
  reachable_by keeps_activity st →
  slot_invariant st ∧
  (∀ s, s ∈ slots st → Slot.is_booked s = false →
     active_count (Slot.id s) (appointments st) = 0).
Proof.
  intros Hreach. pose proof (reachable_accounting st Hreach) as Hacc.
  split.
  - intros s Hs. rewrite (Hacc s Hs). by destruct (Slot.is_booked s).
  - intros s Hs Hfree. by rewrite (Hacc s Hs), Hfree.
Qed.

(** ** The expiry sweep *)

Lemma expire_one_appointments st b :
  appointments (expire_one st b)
  = sql_update (still_reserved (Appointment.id b))
               (Appointment.set_status "EXPIRED") (appointments st).
Proof.
  unfold expire_one. destruct (decide _) as [Hex | Hex]; [done |].
  symmetry. apply sql_update_none. intros r Hr Hres.
  apply Hex, Exists_exists. eauto.
Qed.

Lemma sweep_rows_appointments (selected : list Appointment.t) (st : Store) :
  appointments (foldl expire_one st selected)
  = sql_update (expired_by selected) (Appointment.set_status "EXPIRED")
               (appointments st).
Proof.
  revert st. induction selected as [|b selected IH]; intros st.
  - simpl. symmetry. apply sql_update_none.
    intros r _ [_ Hin]. by apply elem_of_nil in Hin.
  - simpl. rewrite IH, expire_one_appointments.
    unfold sql_update. rewrite <- list_fmap_compose.
    apply list_fmap_ext. intros k r _. simpl.
    unfold expired_by, still_reserved.
    destruct (decide (Appointment.id r = Appointment.id b
                      ∧ Appointment.status r = "RESERVED")) as [[Hid Hres] | Hno].
    + rewrite decide_False by (simpl; by intros [? _]).
      rewrite decide_True; [done |].
      split; [done |]. rewrite fmap_cons, Hid. apply elem_of_cons. auto.
    + destruct (decide (Appointment.status r = "RESERVED"
                        ∧ Appointment.id r ∈ Appointment.id <$> selected))
        as [[Hres Hin] | Hno'].
      * rewrite decide_True; [done |].
        split; [done |]. rewrite fmap_cons. apply elem_of_cons. auto.
      * rewrite decide_False; [done |]. intros [Hres Hin].
        rewrite fmap_cons in Hin. apply elem_of_cons in Hin as [Hid | Hin].
        -- by apply Hno.
        -- by apply Hno'.
Qed.

Lemma released_expire_one j st b : released j st → released j (expire_one st b).
Proof.
  intros Hrel. unfold expire_one. destruct (decide _); [| done].
  intros s' Hs' Hid. simpl in Hs'.
  apply elem_of_sql_update in Hs' as (s & Hs & ->).
  destruct (decide (Slot.id s = _)); [done |]. by apply Hrel.
Qed.

Lemma released_sweep_rows j (selected : list Appointment.t) (st : Store) :
  released j st → released j (foldl expire_one st selected).
Proof.
  revert st. induction selected as [|b selected IH]; intros st Hrel; [done |].
  simpl. by apply IH, released_expire_one.
Qed.

Lemma expire_one_releases st b :
  b ∈ appointments st → Appointment.status b = "RESERVED" →
  released (Appointment.slot_id b) (expire_one st b).
Proof.
  intros Hin Hres. unfold expire_one. rewrite decide_True.
  - intros s' Hs' Hid. simpl in Hs'.
    apply elem_of_sql_update in Hs' as (s & Hs & ->).
    destruct (decide (Slot.id s = _)) as [|Hne]; [done |]. by destruct Hne.
  - apply Exists_exists. exists b. by repeat split.
Qed.

Lemma sweep_rows_release (selected : list Appointment.t) (st : Store)
    (a : Appointment.t) :
  NoDup (Appointment.id <$> selected) → a ∈ selected →
  a ∈ appointments st → Appointment.status a = "RESERVED" →
  released (Appointment.slot_id a) (foldl expire_one st selected).
Proof.
  revert st. induction selected as [|b selected IH];
    intros st Hnd Hsel Hin Hres.
  - by apply elem_of_nil in Hsel.
  - rewrite fmap_cons in Hnd. apply NoDup_cons in Hnd as [Hfresh Hnd].
    simpl. apply elem_of_cons in Hsel as [-> | Hsel].
    + by apply released_sweep_rows, expire_one_releases.
    + apply IH; try done.
      rewrite expire_one_appointments. apply elem_of_sql_update.
      exists a. split; [done |]. rewrite decide_False; [done |].
      intros [Hid _]. apply Hfresh. rewrite <- Hid.
      by apply list_elem_of_fmap_2.
Qed.

Lemma selected_ids_NoDup age threshold (appts : list Appointment.t) :
  NoDup (Appointment.id <$> appts) →
  NoDup (Appointment.id <$> filter (is_stale age threshold) appts).
Proof.
  intros Hnd. eapply sublist_NoDup; [exact Hnd |].
  apply fmap_sublist, sublist_filter.
Qed.

Lemma expired_by_selected age threshold (appts : list Appointment.t)
    (a : Appointment.t) :
  NoDup (Appointment.id <$> appts) → a ∈ appts →
  expired_by (filter (is_stale age threshold) appts) a →
  is_stale age threshold a.
Proof.
  intros Hnd Ha [_ Hin].
  apply list_elem_of_fmap in Hin as (b & Hid & Hb).
  apply list_elem_of_filter in Hb as [Hstale Hb].
  by rewrite (unique_key_eq Appointment.id appts a b Hnd Ha Hb Hid).
Qed.

Lemma sweep_leaves_none_stale age threshold st :
  filter (is_stale age threshold)
         (appointments (auto_expire_reserved age threshold st)) = [].
Proof.
  unfold auto_expire_reserved. rewrite sweep_rows_appointments.
  apply filter_none. intros x Hx [Hres Hage].
  apply elem_of_sql_update in Hx as (r & Hr & ->).
  destruct (decide (expired_by _ r)) as [Hexp | Hno]; [done |].
  apply Hno. split; [done |].
  apply list_elem_of_fmap_2, list_elem_of_filter. by repeat split.
Qed.

Lemma sweep_rows_slots (selected : list Appointment.t) (st : Store) :
  NoDup (Appointment.id <$> selected) →
  (∀ b, b ∈ selected →
     b ∈ appointments st ∧ Appointment.status b = "RESERVED") →
  slots (foldl expire_one st selected)
  = sql_update (λ s, Slot.id s ∈ (Appointment.slot_id <$> selected))
               (Slot.set_is_booked false) (slots st).
Proof.
  revert st. induction selected as [|b selected IH]; intros st Hnd Hsel.
  - simpl. symmetry. apply sql_update_none.
    intros s _ Hin. by apply elem_of_nil in Hin.
  - rewrite fmap_cons in Hnd. apply NoDup_cons in Hnd as [Hfresh Hnd].
    destruct (Hsel b) as [Hb Hres]; [apply elem_of_cons; auto |].
    simpl. rewrite IH; [| done |].
    + unfold expire_one. rewrite decide_True
        by (apply Exists_exists; exists b; by repeat split).
      simpl. unfold sql_update. rewrite <- list_fmap_compose.
      apply list_fmap_ext. intros k s _. simpl.
      destruct (decide (Slot.id s = Appointment.slot_id b)) as [Hid | Hid];
        simpl.
      * rewrite (decide_True (P := Slot.id s ∈ _ :: _))
          by (apply elem_of_cons; auto).
        by destruct (decide (Slot.id s ∈ _)).
      * destruct (decide (Slot.id s ∈ Appointment.slot_id <$> selected))
          as [Hin | Hin].
        -- by rewrite decide_True by (apply elem_of_cons; auto).
        -- rewrite decide_False; [done |].
           intros Hin'. apply elem_of_cons in Hin' as [? | ?]; auto.
    + intros c Hc. destruct (Hsel c) as [Hcin Hcres];
        [apply elem_of_cons; auto |].
      split; [| done]. rewrite expire_one_appointments.
      apply elem_of_sql_update. exists c. split; [done |].
      rewrite decide_False; [done |]. intros [Hid _]. apply Hfresh.
      rewrite <- Hid. by apply list_elem_of_fmap_2.
Qed.

(** C7.  A run of the expiry sweep sets every appointment that is RESERVED
    and older than the threshold to EXPIRED, its other columns staying as
    they are, and leaves the slot of each of them free; the RESERVED
    appointments within the threshold, and the appointments that are not
    RESERVED, are as before; the slots of no expired appointment are as
    before, and no row is added or removed; and a second run right after
    the first changes nothing. *)
Theorem expiry_sweep_spec (age : string → nat) (threshold : nat) (st : Store) :
  NoDup (Appointment.id <$> appointments st) →
  (∀ k a, appointments st !! k = Some a →
     Appointment.status a = "RESERVED" →
     threshold < age (Appointment.created_at a) →
     appointments (auto_expire_reserved age threshold st) !! k
       = Some (Appointment.set_status "EXPIRED" a) ∧
     (∃ a', appointments (auto_expire_reserved age threshold st) !! k
            = Some a' ∧
            Appointment.status a' = "EXPIRED" ∧ same_but_status a a') ∧
     ∀ s, s ∈ slots (auto_expire_reserved age threshold st) →
       Slot.id s = Appointment.slot_id a → Slot.is_booked s = false) ∧
  (∀ k a, appointments st !! k = Some a →
     Appointment.status a = "RESERVED" →
     age (Appointment.created_at a) ≤ threshold →
     appointments (auto_expire_reserved age threshold st) !! k = Some a) ∧
  (∀ k a, appointments st !! k = Some a →
     Appointment.status a ≠ "RESERVED" →
     appointments (auto_expire_reserved age threshold st) !! k = Some a) ∧
  (∀ k s, slots st !! k = Some s →
     (∀ a, a ∈ appointments st → is_stale age threshold a →
           Appointment.slot_id a ≠ Slot.id s) →
     slots (auto_expire_reserved age threshold st) !! k = Some s) ∧
  (∀ k s a, slots st !! k = Some s →
     a ∈ appointments st → is_stale age threshold a →
     Appointment.slot_id a = Slot.id s →
     ∃ s', slots (auto_expire_reserved age threshold st) !! k = Some s' ∧
           Slot.is_booked s' = false ∧ same_window s s') ∧
  length (appointments (auto_expire_reserved age threshold st))
    = length (appointments st) ∧
  length (slots (auto_expire_reserved age threshold st))
    = length (slots st) ∧
  auto_expire_reserved age threshold
    (auto_expire_reserved age threshold st)
  = auto_expire_reserved age threshold st.
Proof.
  intros Hnd.
  assert (Hkeep : ∀ k a, appointments st !! k = Some a →
            ¬ is_stale age threshold a →
            appointments (auto_expire_reserved age threshold st) !! k
              = Some a).
  { intros k a Hk Hno. unfold auto_expire_reserved.
    rewrite sweep_rows_appointments, (lookup_sql_update _ _ _ _ _ Hk).
    rewrite decide_False; [done |]. intros Hexp. apply Hno.
    eapply expired_by_selected; eauto using list_elem_of_lookup_2. }
  assert (Hslots : slots (auto_expire_reserved age threshold st)
            = sql_update
                (λ s, Slot.id s ∈ (Appointment.slot_id <$>
                        filter (is_stale age threshold) (appointments st)))
                (Slot.set_is_booked false) (slots st)).
  { unfold auto_expire_reserved. apply sweep_rows_slots.
    - by apply selected_ids_NoDup.
    - intros b Hb. apply list_elem_of_filter in Hb as [[Hres _] Hb]. auto. }
  assert (Hexpired : ∀ k a, appointments st !! k = Some a →
            Appointment.status a = "RESERVED" →
            threshold < age (Appointment.created_at a) →
            appointments (auto_expire_reserved age threshold st) !! k
              = Some (Appointment.set_status "EXPIRED" a)).
  { intros k a Hk Hres Hage. unfold auto_expire_reserved.
    rewrite sweep_rows_appointments, (lookup_sql_update _ _ _ _ _ Hk).
    rewrite decide_True; [done |]. split; [done |].
    apply list_elem_of_fmap_2, list_elem_of_filter. split; [by split |].
    by eapply list_elem_of_lookup_2. }
  split; [| split; [| split; [| split; [| split; [| split; [| split]]]]]].
  - intros k a Hk Hres Hage.
    assert (Hsel : a ∈ filter (is_stale age threshold) (appointments st)).
    { apply list_elem_of_filter. split; [by split |].
      by eapply list_elem_of_lookup_2. }
    split; [by apply Hexpired |]. split.
    + eexists. split; [by apply Hexpired |].
      split; [reflexivity |]. by repeat split.
    + apply sweep_rows_release; try done.
      * by apply selected_ids_NoDup.
      * by eapply list_elem_of_lookup_2.
  - intros k a Hk Hres Hage. apply Hkeep; [done |]. intros [_ ?]. lia.
  - intros k a Hk Hres. apply Hkeep; [done |]. by intros [? _].
  - intros k s Hk Hno. rewrite Hslots, (lookup_sql_update _ _ _ _ _ Hk).
    rewrite decide_False; [done |]. intros Hin.
    apply list_elem_of_fmap in Hin as (a & Hid & Ha).
    apply list_elem_of_filter in Ha as [Hstale Ha].
    by apply (Hno a Ha Hstale).
  - intros k s a Hk Ha Hstale Hid.
    rewrite Hslots, (lookup_sql_update _ _ _ _ _ Hk).
    rewrite decide_True.
    + eexists. split; [reflexivity |]. split; [reflexivity |].
      by repeat split.
    + rewrite <- Hid. apply list_elem_of_fmap_2, list_elem_of_filter. auto.
  - unfold auto_expire_reserved. rewrite sweep_rows_appointments.
    apply length_sql_update.
  - rewrite Hslots. apply length_sql_update.
  - unfold auto_expire_reserved at 1.
    by rewrite sweep_leaves_none_stale.
Qed.

(** ** Two bookings of one slot, one after the other *)

(** X24.  The scenario of the specification: right after a booking of a
    slot, a second [book] of the same slot is answered with "not available"
    and changes nothing. *)
Lemma book_twice_second_unavailable
    (f g : BookForm.t) (today now today' now' : Datetime)
    (st st' : Store) (code : string) :
  book f today now st = (st', Booked code) →
  BookForm.slot_id g = BookForm.slot_id f →
  book g today' now' st' = (st', SlotNotAvailable).
Proof.
  intros Hbook Hsame.
  apply book_Booked_inv in Hbook
    as (i & name & mob & addr & slot & -> & Hhead & _ & ->).
  apply head_Some_elem_of, list_elem_of_filter in Hhead as [[Hid _] _].
  simpl in Hsame. unfold book. rewrite Hsame.
  rewrite no_free_slot; [done |].
  simpl. intros s' Hs' Hid'.
  apply elem_of_sql_update in Hs' as (s & _ & ->).
  destruct (decide (Slot.id s = Slot.id slot)) as [|Hne]; [done |].
  destruct Hne. simpl in Hid'. congruence.
Qed.

(** ** The examples *)

Example one_slot_store : one_slot = mkStore [slot_1] [].
Proof. reflexivity. Qed.

Example booked_once_store :
  booked_once = mkStore [Slot.set_is_booked true slot_1] [appointment_A].
Proof. reflexivity. Qed.

Example first_code :
  (book form_A jan5 jan5 one_slot).2 = Booked "MB-20240105-0001".
Proof. reflexivity. Qed.

Example ten_thousandth_suffix : zfill 4 (str 10000) = "10000".
Proof. reflexivity. Qed.

Lemma reachable_one_slot allowed :
  allowed empty_store (AddSlot "2024-01-10" "10:00" "10:30") →
  reachable_by allowed one_slot.
Proof. intros H. apply reachable_run; [apply reachable_empty | exact H]. Defined.

Lemma reachable_booked_once : reachable booked_once.
Proof.
  apply reachable_run; [| exact I]. by apply reachable_one_slot.
Defined.

(** C1, against the code.  A slot is added and booked, and staff set the
    appointment to CANCELLED through [admin_update], which does not touch the
    slot: the slot is still booked and no active appointment refers to
    it. *)
Lemma staff_cancel_breaks_slot_invariant :
  reachable cancelled_by_staff ∧ ¬ slot_invariant cancelled_by_staff.
Proof.
  split.
  - apply reachable_run; [apply reachable_booked_once | exact I].
  - intros Hinv.
    destruct (Hinv (Slot.set_is_booked true slot_1)) as [Hone _].
    + apply list_elem_of_here.
    + specialize (Hone eq_refl). vm_compute in Hone. discriminate Hone.
Qed.

Lemma reachable_slot_invariant_witness :
  slot_invariant confirmed_by_staff ∧
  (∀ s, s ∈ slots confirmed_by_staff → Slot.is_booked s = false →
     active_count (Slot.id s) (appointments confirmed_by_staff) = 0).
Proof.
  apply reachable_slot_invariant.
  apply reachable_run.
  - apply reachable_run; [| exact I]. apply reachable_one_slot. exact I.
  - intros a Ha _. apply list_elem_of_singleton in Ha. subst a.
    split; intros _; [by right | by left].
Defined.

Lemma book_free_slot_reserves_witness :
  (∃ st' row,
     book form_A jan5 jan5_later one_slot
       = (st', Booked "MB-20240105-0001") ∧
     appointments st' = [row] ∧
     Appointment.status row = "RESERVED" ∧
     Appointment.created_at row = "2024-01-05T10:01:00" ∧
     Appointment.updated_at row = "2024-01-05T10:01:00") ∧
  (∃ st' row,
     book form_A jul9 jul9 one_slot = (st', Booked "MB-20310709-0001") ∧
     appointments st' = [row] ∧
     Appointment.created_at row = "2031-07-09T23:59:58.000250" ∧
     Appointment.updated_at row = "2031-07-09T23:59:58.000250").
Proof.
  split.
  - destruct (book_free_slot_reserves form_A jan5 jan5_later one_slot 1
                "A" "9000000001" "12 Hill Road" slot_1
                eq_refl (list_elem_of_here _ _) eq_refl eq_refl)
      as (st' & row & Hbook & _ & Happ & _ & _ & _ & _ & _ & Hstatus
          & Hcreated & Hupdated & _).
    exists st', row. repeat split; assumption.
  - destruct (book_free_slot_reserves form_A jul9 jul9 one_slot 1
                "A" "9000000001" "12 Hill Road" slot_1
                eq_refl (list_elem_of_here _ _) eq_refl eq_refl)
      as (st' & row & Hbook & _ & Happ & _ & _ & _ & _ & _ & _
          & Hcreated & Hupdated & _).
    exists st', row. repeat split; assumption.
Defined.

Lemma book_unavailable_unchanged_witness :
  book form_A jan5_later jan5_later booked_once
  = (booked_once, SlotNotAvailable).
Proof.
  apply (book_unavailable_unchanged form_A jan5_later jan5_later
           booked_once 1 eq_refl).
  intros s Hs _. apply list_elem_of_singleton in Hs. by subst s.
Defined.

Lemma book_copies_slot_window_witness :
  ∃ row, appointments booked_once = appointments one_slot ++ [row] ∧
         Appointment.slot_id row = 1 ∧
         Appointment.appointment_date row = "2024-01-10" ∧
         Appointment.slot_time row = "10:00-10:30".
Proof.
  apply (book_copies_slot_window form_A jan5 jan5 one_slot booked_once
           "MB-20240105-0001" slot_1).
  - apply NoDup_singleton.
  - reflexivity.
  - apply list_elem_of_here.
  - reflexivity.
Defined.

(** C9, against the code.  A body with an empty [patient_name] is booked:
    the answer is a confirmation code and the store has changed. *)
Lemma book_accepts_empty_name :
  malformed form_nameless ∧
  (book form_nameless jan5 jan5 one_slot).2 = Booked "MB-20240105-0001" ∧
  (book form_nameless jan5 jan5 one_slot).1 ≠ one_slot.
Proof.
  split; [left; by right |]. split; [reflexivity |].
  intros Heq. vm_compute in Heq. discriminate Heq.
Qed.

Lemma book_rejects_only_missing_keys_witness :
  book (BookForm.mk None (Some "A") None None) jan5 jan5 one_slot
    = (one_slot, KeyError "slot_id") ∧
  book form_no_mobile jan5 jan5 booked_once
    = (booked_once, SlotNotAvailable) ∧
  book form_no_mobile jan5 jan5 one_slot = (one_slot, KeyError "mobile") ∧
  (∃ st' code row,
     book form_nameless jan5 jan5 one_slot = (st', Booked code) ∧
     appointments st' = appointments one_slot ++ [row] ∧
     Appointment.patient_name row = EmptyString ∧
     Appointment.mobile row = "9000000001" ∧
     Appointment.address row = "12 Hill Road").
Proof.
  split; [| split; [| split]].
  - destruct (book_rejects_only_missing_keys
                (BookForm.mk None (Some "A") None None) jan5 jan5 one_slot)
      as (_ & Hslot & _).
    by apply Hslot.
  - destruct (book_rejects_only_missing_keys form_no_mobile jan5 jan5
                booked_once) as (_ & _ & Hbooked & _).
    apply (Hbooked 1 eq_refl).
    intros s Hs _. apply list_elem_of_singleton in Hs. by subst s.
  - destruct (book_rejects_only_missing_keys form_no_mobile jan5 jan5
                one_slot) as (_ & _ & _ & Hfree).
    destruct (Hfree 1 slot_1 eq_refl (list_elem_of_here _ _)
                (conj eq_refl eq_refl)) as (_ & Hmobile & _).
    by apply (Hmobile "A").
  - destruct (book_rejects_only_missing_keys form_nameless jan5 jan5
                one_slot) as (_ & _ & _ & Hfree).
    destruct (Hfree 1 slot_1 eq_refl (list_elem_of_here _ _)
                (conj eq_refl eq_refl)) as (_ & _ & _ & Hall).
    by apply (Hall EmptyString "9000000001" "12 Hill Road").
Defined.

Lemma cancel_spec_witness :
  (cancel "MB-20240105-0001" booked_once).1
  = mkStore [slot_1] [appointment_A_cancelled] ∧
  (∃ a', appointments (cancel "MB-20240105-0001" booked_once).1 !! 0
         = Some a' ∧
         Appointment.status a' = "CANCELLED" ∧
         same_but_status appointment_A a') ∧
  ∀ s, s ∈ slots (cancel "MB-20240105-0001" booked_once).1 →
    Slot.id s = 1 → Slot.is_booked s = false.
Proof.
  split; [reflexivity |].
  destruct (cancel_spec "MB-20240105-0001" booked_once)
    as (_ & _ & Hfound & _).
  destruct (Hfound (NoDup_singleton _) appointment_A
              (list_elem_of_here _ _) eq_refl) as [_ Hres].
  destruct (Hres eq_refl) as (_ & _ & Hslot & Hrow & _).
  split; [exact (Hrow 0 eq_refl) | exact Hslot].
Defined.


Example two_bookings_codes :
  Appointment.confirmation_code <$> appointments two_bookings
  = ["MB-20240105-0001"; "MB-20240105-0002"].
Proof. reflexivity. Qed.

Example two_bookings_statuses :
  Appointment.status <$> appointments two_bookings = ["CANCELLED"; "RESERVED"].
Proof. reflexivity. Qed.

Lemma admin_update_overwrites_witness :
  ∃ a', appointments cancelled_by_staff !! 0 = Some a' ∧
        Appointment.status a' = "CANCELLED" ∧
        Appointment.updated_at a' = "2024-01-05T10:01:00" ∧
        Appointment.created_at a' = "2024-01-05T09:30:00".
Proof.
  destruct (admin_update_overwrites 1 "CANCELLED" None None jan5_later
              booked_once 0 appointment_A eq_refl eq_refl)
    as (_ & (a' & Hk & Hstatus & _ & _ & Hupd & Hrest) & _).
  exists a'. split; [exact Hk |]. split; [exact Hstatus |].
  split; [exact Hupd |].
  by destruct Hrest as (_ & _ & _ & _ & _ & _ & _ & _ & ->).
Defined.

Example three_bookings_swept :
  Appointment.status
    <$> appointments (auto_expire_reserved minutes_at_1001 30 three_bookings)
  = ["EXPIRED"; "CONFIRMED"; "RESERVED"] ∧
  Slot.is_booked
    <$> slots (auto_expire_reserved minutes_at_1001 30 three_bookings)
  = [false; true; true].
Proof. split; reflexivity. Qed.

Lemma none_stale_on_slot_3 (a : Appointment.t) :
  a ∈ appointments three_bookings → is_stale minutes_at_1001 30 a →
  Appointment.slot_id a ≠ 3.
Proof.
  intros Ha [Hres Hage]. change (appointments three_bookings) with
    [appointment_A;
     Appointment.mk 2 "MB-20240105-0002" "C" "9000000003" "7 Mill Lane"
                    3 "2024-01-10" "11:00-11:30" "CONFIRMED" None None
                    "2024-01-05T09:30:00" "2024-01-05T10:01:00";
     Appointment.mk 3 "MB-20240105-0003" "B" "9000000002" "3 Lake View"
                    2 "2024-01-10" "10:30-11:00" "RESERVED" None None
                    "2024-01-05T10:01:00" "2024-01-05T10:01:00"] in Ha.
  apply elem_of_cons in Ha as [-> | Ha]; [discriminate |].
  apply elem_of_cons in Ha as [-> | Ha]; [discriminate Hres |].
  apply list_elem_of_singleton in Ha as ->. discriminate.
Defined.

Lemma expiry_sweep_spec_witness :
  (∃ a', appointments (auto_expire_reserved minutes_at_1001 30
                         three_bookings) !! 0 = Some a' ∧
         Appointment.status a' = "EXPIRED" ∧
         same_but_status appointment_A a') ∧
  appointments (auto_expire_reserved minutes_at_1001 30 three_bookings) !! 2
  = appointments three_bookings !! 2 ∧
  appointments (auto_expire_reserved minutes_at_1001 30 three_bookings) !! 1
  = appointments three_bookings !! 1 ∧
  slots (auto_expire_reserved minutes_at_1001 30 three_bookings) !! 2
  = slots three_bookings !! 2 ∧
  (∀ s, s ∈ slots (auto_expire_reserved minutes_at_1001 30 three_bookings) →
     Slot.id s = 1 → Slot.is_booked s = false).
Proof.
  destruct (expiry_sweep_spec minutes_at_1001 30 three_bookings
              (NoDup_seq 1 3))
    as (Hstale & Hwithin & Hother & Hslot & _).
  destruct (Hstale 0 appointment_A eq_refl eq_refl
              (proj1 (Nat.ltb_lt 30 31) eq_refl)) as (_ & Hrow & Hfree).
  split; [exact Hrow |]. split; [| split; [| split; [| exact Hfree]]].
  - apply (Hwithin 2 _ eq_refl eq_refl (proj1 (Nat.leb_le 0 30) eq_refl)).
  - apply (Hother 1 _ eq_refl). discriminate.
  - apply (Hslot 2 _ eq_refl). apply none_stale_on_slot_3.
Defined.


(** * Further properties of the handlers *)

(** ** [admin_update] beyond the ledger *)

Lemma store_eta (st : Store) : mkStore (slots st) (appointments st) = st.
Proof. by destruct st. Qed.

(** X1.  [admin_update] with a rowid that no appointment has changes
    nothing and still answers with success: there is no "not found". *)
Theorem admin_update_unknown_id
    (id : nat) (status : string) (meeting_link remarks : option string)
    (now : Datetime) (st : Store) :
  (∀ a, a ∈ appointments st → Appointment.id a ≠ id) →
  admin_update id status meeting_link remarks now st = (st, Success).
Proof.
  intros Hno. unfold admin_update. rewrite sql_update_none by done.
  by rewrite store_eta.
Qed.

Lemma admin_update_unknown_id_witness :
  admin_update 7 "CONFIRMED" None None jan5_later booked_once
  = (booked_once, Success).
Proof.
  apply admin_update_unknown_id.
  intros a Ha. apply list_elem_of_singleton in Ha. by subst a.
Defined.

(** X2.  The last update wins: of two [admin_update]s of the same rowid, run
    one after the other, nothing of the first is left. *)
Theorem admin_update_last_wins
    (id : nat) (status1 status2 : string)
    (link1 remarks1 link2 remarks2 : option string)
    (now1 now2 : Datetime) (st : Store) :
  (admin_update id status2 link2 remarks2 now2
     (admin_update id status1 link1 remarks1 now1 st).1).1
  = (admin_update id status2 link2 remarks2 now2 st).1.
Proof.
  unfold admin_update. simpl. f_equal.
  unfold sql_update. rewrite <- list_fmap_compose.
  apply list_fmap_ext. intros k a _. simpl.
  destruct (decide (Appointment.id a = id)) as [Hid | Hid].
  - by rewrite decide_True by done.
  - by rewrite decide_False by done.
Qed.

(** ** Nothing is deleted *)

Lemma book_cases f today now st :
  (book f today now st).1 = st ∨
  ∃ st' code, book f today now st = (st', Booked code).
Proof.
  unfold book. destruct f as [[i|] name mob addr]; simpl; [| by left].
  destruct (head (filter (is_free i) (slots st))); [| by left].
  destruct name, mob, addr; simpl; eauto.
Qed.

Lemma same_booking_refl a : same_booking a a.
Proof. by repeat split. Qed.

Lemma same_window_refl s : same_window s s.
Proof. by repeat split. Qed.

Lemma kept_by_update_appointments (cond : Appointment.t → Prop)
    `{!∀ r, Decision (cond r)} (set : Appointment.t → Appointment.t)
    (l : list Appointment.t) k a :
  (∀ r, same_booking r (set r)) → l !! k = Some a →
  ∃ a', sql_update cond set l !! k = Some a' ∧ same_booking a a'.
Proof.
  intros Hset Hk. eexists. rewrite (lookup_sql_update _ _ _ _ _ Hk).
  split; [done |]. destruct (decide (cond a)); [apply Hset |].
  apply same_booking_refl.
Qed.

Lemma kept_by_update_slots (cond : Slot.t → Prop)
    `{!∀ r, Decision (cond r)} (b : bool) (l : list Slot.t) k s :
  l !! k = Some s →
  ∃ s', sql_update cond (Slot.set_is_booked b) l !! k = Some s' ∧
        same_window s s'.
Proof.
  intros Hk. eexists. rewrite (lookup_sql_update _ _ _ _ _ Hk).
  split; [done |]. by destruct (decide (cond s)).
Qed.

(** X3.  No handler deletes or re-identifies a row.  After [book], [cancel],
    [add_slot] or [admin_update], every appointment is still at its place
    with its rowid, code, patient, slot, date, time and creation stamp, and
    every slot is still at its place with its rowid and its window. *)
Theorem handlers_keep_rows (st st' : Store) :
  written_by_handler st st' →
  (∀ k a, appointments st !! k = Some a →
     ∃ a', appointments st' !! k = Some a' ∧ same_booking a a') ∧
  (∀ k s, slots st !! k = Some s →
     ∃ s', slots st' !! k = Some s' ∧ same_window s s').
Proof.
  assert (Hid : ∀ st0 : Store,
            (∀ k a, appointments st0 !! k = Some a →
               ∃ a', appointments st0 !! k = Some a' ∧ same_booking a a') ∧
            (∀ k s, slots st0 !! k = Some s →
               ∃ s', slots st0 !! k = Some s' ∧ same_window s s')).
  { intros st0. split; intros k x Hk; exists x;
      auto using same_booking_refl, same_window_refl. }
  intros [(f & today & now & ->) | [(code & ->) |
          [(d & b & e & ->) | (id & status & link & remarks & now & ->)]]].
  - destruct (book_cases f today now st) as [-> | (st' & code & Hbook)];
      [apply Hid |].
    rewrite Hbook. simpl.
    apply book_Booked_inv in Hbook
      as (i & name & mob & addr & slot & _ & _ & _ & ->).
    simpl. split.
    + intros k a Hk. exists a. split; [| apply same_booking_refl].
      by apply lookup_app_l_Some.
    + intros k s Hk. by apply kept_by_update_slots.
  - unfold cancel. destruct (head _) as [a|]; [| apply Hid].
    destruct (decide _); [| apply Hid]. simpl. split.
    + intros k b Hk. by apply kept_by_update_appointments.
    + intros k s Hk. by apply kept_by_update_slots.
  - simpl. split; [apply Hid |].
    intros k s Hk. exists s. split; [| apply same_window_refl].
    by apply lookup_app_l_Some.
  - simpl. split; [| apply Hid].
    intros k a Hk. by apply kept_by_update_appointments.
Qed.

Lemma handlers_keep_rows_witness :
  ∃ a', appointments (cancel "MB-20240105-0001" booked_once).1 !! 0 = Some a' ∧
        same_booking appointment_A a'.
Proof.
  apply (proj1 (handlers_keep_rows booked_once
                  (cancel "MB-20240105-0001" booked_once).1
                  (or_intror (or_introl (ex_intro _ _ eq_refl))))
           0 appointment_A eq_refl).
Defined.

(** ** A new slot can be booked *)

Lemma next_rowid_fresh (ids : list nat) : next_rowid ids ∉ ids.
Proof. apply max_list_not_elem_of_gt. unfold next_rowid. lia. Qed.

(** X4.  The slot that [add_slot] inserts gets a rowid that no slot of the
    store has, and a [book] of that rowid right after succeeds, whatever the
    store held before: the appointment carries the date and the window that
    were given to [add_slot]. *)
Theorem add_slot_then_book
    (slot_date start_time end_time name mob addr : string)
    (today now : Datetime) (st : Store) :
  let new_id := next_rowid (Slot.id <$> slots st) in
  (new_id ∉ (Slot.id <$> slots st)) ∧
  ∃ st' code row,
    book (BookForm.mk (Some new_id) (Some name) (Some mob) (Some addr))
         today now (add_slot slot_date start_time end_time st).1
      = (st', Booked code) ∧
    appointments st' = appointments st ++ [row] ∧
    Appointment.slot_id row = new_id ∧
    Appointment.appointment_date row = slot_date ∧
    Appointment.slot_time row = start_time +:+ "-" +:+ end_time.
Proof.
  intros new_id. split; [apply next_rowid_fresh |].
  set (new := Slot.mk new_id slot_date start_time end_time false).
  assert (Hhead : head (filter (is_free new_id)
                          (slots (add_slot slot_date start_time end_time st).1))
                  = Some new).
  { simpl. rewrite filter_app, filter_none.
    - rewrite filter_cons_True by done. done.
    - intros s Hs [Hid _]. apply (next_rowid_fresh (Slot.id <$> slots st)).
      fold new_id. rewrite <- Hid. by apply list_elem_of_fmap_2. }
  rewrite (book_found _ today now _ new_id name mob addr new eq_refl Hhead).
  eexists _, _, _. split; [reflexivity |]. by simpl.
Qed.

(** ** Codes and counts *)

(** X5.  Two successful bookings that are answered with the same code were
    made at the same number of appointments, whatever their dates: the last
    field of the code alone tells the count. *)
Theorem same_code_same_count
    (f1 f2 : BookForm.t) (today1 now1 today2 now2 : Datetime)
    (st1 st2 st1' st2' : Store) (code : string) :
  book f1 today1 now1 st1 = (st1', Booked code) →
  book f2 today2 now2 st2 = (st2', Booked code) →
  length (appointments st1) = length (appointments st2).
Proof.
  intros H1 H2.
  apply book_Booked_inv in H1 as (? & ? & ? & ? & ? & _ & _ & Hc1 & _).
  apply book_Booked_inv in H2 as (? & ? & ? & ? & ? & _ & _ & Hc2 & _).
  pose proof (code_number_spec (strftime_Ymd today1)
                (length (appointments st1) + 1)) as E1.
  pose proof (code_number_spec (strftime_Ymd today2)
                (length (appointments st2) + 1)) as E2.
  rewrite <- Hc1 in E1. rewrite <- Hc2, E1 in E2.
  injection E2. lia.
Qed.

Lemma same_code_same_count_witness :
  length (appointments one_slot) = length (appointments one_slot).
Proof.
  apply (same_code_same_count form_A form_nameless jan5 jan5 jan5 jan5_later
           one_slot one_slot
           (book form_A jan5 jan5 one_slot).1
           (book form_nameless jan5 jan5_later one_slot).1
           "MB-20240105-0001"); reflexivity.
Defined.

Lemma book_twice_second_unavailable_witness :
  book form_nameless jan5_later jan5_later booked_once
  = (booked_once, SlotNotAvailable).
Proof.
  apply (book_twice_second_unavailable form_A form_nameless jan5 jan5
           jan5_later jan5_later one_slot booked_once "MB-20240105-0001");
    reflexivity.
Defined.

(** ** The sorter of [ORDER BY] *)

Section order_by_sort.
Context {A : Type} (R : relation A) `{!RelDecision R}.

Lemma sorted_insert_Permutation (x : A) (l : list A) :
  sorted_insert R x l ≡ₚ x :: l.
Proof.
  induction l as [|y l IH]; simpl; [done |].
  destruct (decide (R x y)); [done |]. rewrite IH. apply Permutation_swap.
Qed.

Lemma order_by_sort_Permutation (l : list A) : order_by_sort R l ≡ₚ l.
Proof.
  unfold order_by_sort. induction l as [|x l IH]; simpl; [done |].
  by rewrite sorted_insert_Permutation, IH.
Qed.

Lemma StronglySorted_sorted_insert (x : A) (l : list A) :
  Transitive R → Total R →
  StronglySorted R l → StronglySorted R (sorted_insert R x l).
Proof.
  intros Htrans Htotal. induction 1 as [|y l Hsorted IH Hall]; simpl.
  - repeat constructor.
  - destruct (decide (R x y)) as [Hxy | Hxy].
    + constructor; [by constructor |].
      constructor; [done |].
      eapply Forall_impl; [exact Hall |]. intros z Hz. by etrans.
    + constructor; [exact IH |].
      rewrite sorted_insert_Permutation. constructor; [| done].
      by destruct (Htotal x y).
Qed.

Lemma StronglySorted_order_by_sort :
  Transitive R → Total R → ∀ l, StronglySorted R (order_by_sort R l).
Proof.
  intros Htrans Htotal l. unfold order_by_sort.
  induction l as [|x l IH]; simpl; [constructor |].
  by apply StronglySorted_sorted_insert.
Qed.
End order_by_sort.

(** ** [available_slots] *)

Section order_by.
Context {A : Type} (le1 le2 : relation string) (k1 k2 : A → string).
Context `{!RelDecision le1, !PartialOrder le1} (le1_total : Total le1).
Context `{!Transitive le2} (le2_total : Total le2).

Lemma order_by_total : Total (order_by le1 le2 k1 k2).
Proof.
  intros x y. unfold order_by, strict.
  destruct (decide (le1 (k1 x) (k1 y))) as [Hxy | Hxy],
           (decide (le1 (k1 y) (k1 x))) as [Hyx | Hyx].
  - assert (Heq : k1 x = k1 y) by (by apply (anti_symm le1)).
    destruct (le2_total (k2 x) (k2 y)); [left | right]; right; auto.
  - left. by left.
  - right. by left.
  - by destruct (le1_total (k1 x) (k1 y)).
Qed.

Lemma order_by_transitive : Transitive (order_by le1 le2 k1 k2).
Proof.
  intros x y z [[Hxy Hnyx] | [Hxy Hxy2]] [[Hyz Hnzy] | [Hyz Hyz2]];
    unfold order_by, strict.
  - left. split; [by etrans |]. intros Hzx. apply Hnyx. by etrans.
  - left. rewrite <- Hyz. by split.
  - left. rewrite Hxy. by split.
  - right. split; [congruence | by etrans].
Qed.
End order_by.

Lemma by_date_start_total : Total by_date_start.
Proof. apply order_by_total; first [apply String.le_total | apply _]. Qed.

Lemma by_date_start_transitive : Transitive by_date_start.
Proof. apply order_by_transitive; apply _. Qed.

(** X6.  [available_slots] lists exactly the slots of the store that are not
    booked, each as often as it is stored, and in the order of date and
    start time: every listed slot comes before the ones listed after it. *)
Theorem available_slots_spec (st : Store) :
  (∀ s, s ∈ available_slots st ↔ s ∈ slots st ∧ Slot.is_booked s = false) ∧
  available_slots st ≡ₚ filter (λ s, Slot.is_booked s = false) (slots st) ∧
  StronglySorted by_date_start (available_slots st).
Proof.
  unfold available_slots. split; [| split].
  - intros s. rewrite order_by_sort_Permutation, list_elem_of_filter. tauto.
  - apply order_by_sort_Permutation.
  - apply StronglySorted_order_by_sort;
      [apply by_date_start_transitive | apply by_date_start_total].
Qed.

Lemma elem_of_available_slots st s :
  s ∈ available_slots st ↔ s ∈ slots st ∧ Slot.is_booked s = false.
Proof.
  unfold available_slots.
  rewrite order_by_sort_Permutation, list_elem_of_filter. tauto.
Qed.

(** X7.  The list and the booking agree.  A request that has its four keys
    is booked if and only if [available_slots] lists a slot with the
    requested rowid, and is answered with "not available", the store
    unchanged, otherwise. *)
Theorem book_iff_listed
    (i : nat) (name mob addr : string) (today now : Datetime) (st : Store) :
  let f := BookForm.mk (Some i) (Some name) (Some mob) (Some addr) in
  ((∃ st' code, book f today now st = (st', Booked code)) ↔
   (∃ s, s ∈ available_slots st ∧ Slot.id s = i)) ∧
  ((∀ s, s ∈ available_slots st → Slot.id s ≠ i) →
   book f today now st = (st, SlotNotAvailable)).
Proof.
  intros f. split; [split |].
  - intros (st' & code & Hbook).
    apply book_Booked_inv in Hbook
      as (i' & ? & ? & ? & slot & [= <- _ _ _] & Hhead & _).
    apply head_Some_elem_of, list_elem_of_filter in Hhead as [[Hid Hfree] Hin].
    exists slot. split; [by apply elem_of_available_slots | done].
  - intros (s & Hs & Hid). apply elem_of_available_slots in Hs as [Hin Hfree].
    destruct (free_slot_found i (slots st) s Hin Hid Hfree)
      as (slot & Hhead & _).
    rewrite (book_found f today now st i name mob addr slot eq_refl Hhead).
    eauto.
  - intros Hno. unfold book. simpl. rewrite no_free_slot; [done |].
    intros s Hs Hid. destruct (Slot.is_booked s) eqn:Hb; [done |].
    exfalso. apply (Hno s); [by apply elem_of_available_slots | done].
Qed.

Lemma book_iff_listed_witness :
  book (BookForm.mk (Some 2) (Some "A") (Some "9000000001")
                    (Some "12 Hill Road")) jan5 jan5 one_slot
  = (one_slot, SlotNotAvailable).
Proof.
  apply (proj2 (book_iff_listed 2 "A" "9000000001" "12 Hill Road"
                  jan5 jan5 one_slot)).
  intros s Hs. apply elem_of_available_slots in Hs as [Hs _].
  apply list_elem_of_singleton in Hs. by subst s.
Defined.

(** X8.  A successful booking takes the slots of the booked rowid off the
    list of [available_slots] and leaves every other listed slot on it. *)
Theorem available_slots_after_book
    (f : BookForm.t) (today now : Datetime) (st st' : Store)
    (code : string) (i : nat) :
  book f today now st = (st', Booked code) →
  BookForm.slot_id f = Some i →
  ∀ s, s ∈ available_slots st' ↔ s ∈ available_slots st ∧ Slot.id s ≠ i.
Proof.
  intros Hbook Hreq s.
  apply book_Booked_inv in Hbook
    as (i' & ? & ? & ? & slot & -> & Hhead & _ & ->).
  simpl in Hreq. injection Hreq as ->.
  apply head_Some_elem_of, list_elem_of_filter in Hhead as [[Hid _] _].
  rewrite !elem_of_available_slots. simpl. rewrite elem_of_sql_update, Hid.
  split.
  - intros [(s0 & Hs0 & ->) Hfree].
    destruct (decide (Slot.id s0 = i)) as [|Hne]; [done |]. auto.
  - intros [[Hin Hfree] Hne]. split; [| done].
    exists s. split; [done |]. by rewrite decide_False.
Qed.

Lemma available_slots_after_book_witness :
  slot_1 ∈ available_slots booked_once ↔
  slot_1 ∈ available_slots one_slot ∧ Slot.id slot_1 ≠ 1.
Proof.
  apply (available_slots_after_book form_A jan5 jan5 one_slot booked_once
           "MB-20240105-0001" 1); reflexivity.
Defined.

(** X9.  A cancelled reservation gives its slot back.  In a store with
    unique codes, after the [cancel] of a RESERVED appointment whose slot
    exists, [available_slots] lists that slot again and a [book] of it
    succeeds. *)
Theorem cancel_then_rebook
    (a : Appointment.t) (s : Slot.t) (name mob addr : string)
    (today now : Datetime) (st : Store) :
  NoDup (Appointment.confirmation_code <$> appointments st) →
  a ∈ appointments st → Appointment.status a = "RESERVED" →
  s ∈ slots st → Slot.id s = Appointment.slot_id a →
  let st1 := (cancel (Appointment.confirmation_code a) st).1 in
  Slot.set_is_booked false s ∈ available_slots st1 ∧
  ∃ st2 code,
    book (BookForm.mk (Some (Appointment.slot_id a)) (Some name) (Some mob)
                      (Some addr)) today now st1
    = (st2, Booked code).
Proof.
  intros Hnd Ha Hres Hs Hid st1.
  assert (Hin : Slot.set_is_booked false s ∈ slots st1).
  { unfold st1, cancel. rewrite (fetch_by_code _ a Hnd Ha). simpl.
    rewrite decide_True by done. simpl.
    apply elem_of_sql_update. exists s. split; [done |].
    by rewrite decide_True. }
  split; [by apply elem_of_available_slots |].
  destruct (free_slot_found (Appointment.slot_id a) (slots st1)
              (Slot.set_is_booked false s) Hin Hid eq_refl)
    as (slot & Hhead & _).
  rewrite (book_found _ today now st1 _ name mob addr slot eq_refl Hhead).
  eauto.
Qed.

Lemma cancel_then_rebook_witness :
  ∃ st2 code,
    book form_A jan5_later jan5_later
         (cancel "MB-20240105-0001" booked_once).1
    = (st2, Booked code).
Proof.
  apply (cancel_then_rebook appointment_A (Slot.set_is_booked true slot_1)
           "A" "9000000001" "12 Hill Road" jan5_later jan5_later booked_once).
  - apply NoDup_singleton.
  - apply list_elem_of_here.
  - reflexivity.
  - apply list_elem_of_here.
  - reflexivity.
Defined.

(** ** [status] *)

Lemma new_code_fresh (st : Store) (date : string) (a : Appointment.t) :
  consistent st → a ∈ appointments st →
  Appointment.confirmation_code a
  ≠ "MB-" +:+ date +:+ "-" +:+ zfill 4 (str (length (appointments st) + 1)).
Proof.
  intros [_ _ Hc _] Ha Heq.
  apply list_elem_of_lookup_1 in Ha as [k Hk].
  pose proof (lookup_lt_Some _ _ _ Hk) as Hlt.
  apply Hc in Hk. rewrite Heq, code_number_spec in Hk.
  injection Hk. lia.
Qed.

(** X10.  What was booked can be looked up.  In a reachable store, right
    after [book] answers with a code, [status] of that code finds the
    appointment that was just inserted, RESERVED, and [status] of every
    other code answers as before the booking. *)
Theorem status_after_book
    (f : BookForm.t) (today now : Datetime) (st st' : Store) (code : string) :
  reachable st → book f today now st = (st', Booked code) →
  (∃ row, status code st' = Found row ∧
          appointments st' = appointments st ++ [row] ∧
          Appointment.confirmation_code row = code ∧
          Appointment.status row = "RESERVED" ∧
          Some (Appointment.patient_name row) = BookForm.patient_name f ∧
          Some (Appointment.mobile row) = BookForm.mobile f ∧
          Some (Appointment.slot_id row) = BookForm.slot_id f) ∧
  (∀ c, c ≠ code → status c st' = status c st).
Proof.
  intros Hreach Hbook.
  pose proof (reachable_by_consistent _ _ Hreach) as Hst.
  apply book_Booked_inv in Hbook
    as (i & name & mob & addr & slot & -> & Hhead & -> & ->).
  apply head_Some_elem_of, list_elem_of_filter in Hhead as [[Hid _] _].
  split.
  - eexists. unfold status. simpl. rewrite filter_app.
    rewrite filter_none
      by (intros a Ha; by apply (new_code_fresh st _ a Hst Ha)).
    rewrite filter_cons_True by done. simpl.
    split; [reflexivity |]. simpl. by rewrite Hid.
  - intros c Hc. unfold status. simpl. rewrite filter_app.
    rewrite (filter_none _ [_]); [by rewrite app_nil_r |].
    intros a Ha. apply list_elem_of_singleton in Ha as ->. simpl. congruence.
Qed.

Lemma status_after_book_witness :
  ∃ row, status "MB-20240105-0001" booked_once = Found row ∧
         Appointment.status row = "RESERVED".
Proof.
  destruct (status_after_book form_A jan5 jan5 one_slot booked_once
              "MB-20240105-0001"
              (reachable_one_slot (λ _ _, True) I) eq_refl)
    as [(row & Hfound & _ & _ & Hres & _) _].
  exists row. by split.
Defined.

Lemma filter_other_code (c c' : string) (set : Appointment.t → Appointment.t)
    (l : list Appointment.t) :
  c' ≠ c → keeps_identity set →
  filter (λ a, Appointment.confirmation_code a = c')
         (sql_update (λ a, Appointment.confirmation_code a = c) set l)
  = filter (λ a, Appointment.confirmation_code a = c') l.
Proof.
  intros Hne Hset. induction l as [|x l IH]; [done |].
  unfold sql_update in *. rewrite fmap_cons, !filter_cons, IH.
  destruct (decide (Appointment.confirmation_code x = c)) as [Hx | Hx].
  - rewrite decide_False by (destruct (Hset x) as (_ & -> & _); congruence).
    by rewrite decide_False by congruence.
  - done.
Qed.

(** X11.  What [cancel] did shows through [status].  After [cancel] of a
    code, [status] of the code shows the appointment it showed before, with
    the status CANCELLED and its other columns unchanged if it was RESERVED,
    and unchanged otherwise, and "not found" if it was not found; [status]
    of any other code answers as before. *)
Theorem status_after_cancel (code : string) (st : Store) :
  status code (cancel code st).1
  = match status code st with
    | Found a =>
        if decide (Appointment.status a = "RESERVED")
        then Found (Appointment.set_status "CANCELLED" a) else Found a
    | NotFound => NotFound
    end ∧
  (∀ a, status code st = Found a → Appointment.status a = "RESERVED" →
     ∃ a', status code (cancel code st).1 = Found a' ∧
           Appointment.status a' = "CANCELLED" ∧ same_but_status a a') ∧
  (∀ c, c ≠ code → status c (cancel code st).1 = status c st).
Proof.
  assert (Heq : status code (cancel code st).1
                = match status code st with
                  | Found a =>
                      if decide (Appointment.status a = "RESERVED")
                      then Found (Appointment.set_status "CANCELLED" a)
                      else Found a
                  | NotFound => NotFound
                  end).
  { unfold status at 2. unfold cancel.
    destruct (head (filter _ (appointments st))) as [a|] eqn:Hhead.
    + destruct (decide (Appointment.status a = "RESERVED")); simpl.
      * unfold status. simpl. rewrite filter_sql_update_same by done.
        apply head_Some in Hhead as [rest ->]. done.
      * unfold status. by rewrite Hhead.
    + simpl. unfold status. by rewrite Hhead. }
  split; [exact Heq |]. split.
  - intros a Hfound Hres. rewrite Heq, Hfound, decide_True by done.
    eexists. split; [reflexivity |]. split; [reflexivity |].
    by repeat split.
  - intros c Hc. unfold cancel.
    destruct (head (filter _ (appointments st))) as [a|]; [| done].
    destruct (decide (Appointment.status a = "RESERVED")); [| done].
    unfold status. simpl.
    by rewrite filter_other_code by (done || apply keeps_identity_set_status).
Qed.

(** ** [history] *)

Lemma newest_first_total : Total newest_first.
Proof. intros a b. unfold newest_first. apply String.le_total. Qed.

Lemma newest_first_transitive : Transitive newest_first.
Proof. intros a b c Hab Hbc. unfold newest_first in *. by etrans. Qed.

(** X12.  [history] of a mobile number lists exactly the appointments of the
    ledger with that number, whatever their status, each once per row, the
    later created first. *)
Theorem history_spec (mobile : string) (st : Store) :
  (∀ a, a ∈ history mobile st ↔
        a ∈ appointments st ∧ Appointment.mobile a = mobile) ∧
  history mobile st
    ≡ₚ filter (λ a, Appointment.mobile a = mobile) (appointments st) ∧
  StronglySorted newest_first (history mobile st).
Proof.
  unfold history. split; [| split].
  - intros a. rewrite order_by_sort_Permutation, list_elem_of_filter. tauto.
  - apply order_by_sort_Permutation.
  - apply StronglySorted_order_by_sort;
      [apply newest_first_transitive | apply newest_first_total].
Qed.

(** X13.  A booking adds one entry to the history of its mobile number and
    none to the history of any other number. *)
Theorem history_after_book
    (f : BookForm.t) (today now : Datetime) (st st' : Store)
    (code mob : string) :
  book f today now st = (st', Booked code) → BookForm.mobile f = Some mob →
  (∃ row, history mob st' ≡ₚ row :: history mob st ∧
          Appointment.confirmation_code row = code ∧
          Appointment.mobile row = mob) ∧
  (∀ m, m ≠ mob → history m st' ≡ₚ history m st).
Proof.
  intros Hbook Hmob.
  apply book_Booked_inv in Hbook
    as (i & name & mob' & addr & slot & -> & _ & -> & ->).
  simpl in Hmob. injection Hmob as ->.
  unfold history. simpl. split.
  - match goal with |- context [appointments st ++ [?r]] => exists r end.
    rewrite !order_by_sort_Permutation, filter_app.
    rewrite filter_cons_True by done.
    split; [| done]. rewrite filter_nil.
    by rewrite <- Permutation_cons_append.
  - intros m Hm. rewrite !order_by_sort_Permutation, filter_app.
    rewrite (filter_none _ [_]); [by rewrite app_nil_r |].
    intros a Ha. apply list_elem_of_singleton in Ha as ->. simpl. congruence.
Qed.

Lemma history_after_book_witness :
  ∃ row, history "9000000001" booked_once
           ≡ₚ row :: history "9000000001" one_slot ∧
         Appointment.confirmation_code row = "MB-20240105-0001" ∧
         Appointment.mobile row = "9000000001".
Proof.
  apply (proj1 (history_after_book form_A jan5 jan5 one_slot booked_once
                  "MB-20240105-0001" "9000000001" eq_refl eq_refl)).
Defined.

(** X14.  A cancelled appointment stays in the history: [cancel] changes no
    mobile number, so every history keeps its length, and the appointment of
    the cancelled code is listed with the status CANCELLED and its other
    columns as they were. *)
Theorem history_after_cancel (code mobile : string) (st : Store) :
  length (history mobile (cancel code st).1) = length (history mobile st) ∧
  (∀ a, status code st = Found a → Appointment.status a = "RESERVED" →
        Appointment.set_status "CANCELLED" a
        ∈ history (Appointment.mobile a) (cancel code st).1) ∧
  (∀ a, status code st = Found a → Appointment.status a = "RESERVED" →
        ∃ a', a' ∈ history (Appointment.mobile a) (cancel code st).1 ∧
              Appointment.status a' = "CANCELLED" ∧ same_but_status a a').
Proof.
  assert (Hlisted : ∀ a, status code st = Found a →
            Appointment.status a = "RESERVED" →
            Appointment.set_status "CANCELLED" a
            ∈ history (Appointment.mobile a) (cancel code st).1).
  { intros a Hfound Hres. unfold status in Hfound.
    destruct (head (filter _ (appointments st))) as [a0|] eqn:Hhead;
      [| done].
    injection Hfound as ->. unfold cancel. rewrite Hhead.
    rewrite decide_True by done. simpl.
    apply head_Some_elem_of, list_elem_of_filter in Hhead as [Hcode Hin].
    unfold history. rewrite order_by_sort_Permutation. simpl.
    apply list_elem_of_filter. split; [done |].
    apply elem_of_sql_update. exists a. split; [done |].
    by rewrite decide_True. }
  split; [| split; [exact Hlisted |]].
  - unfold cancel. destruct (head _) as [a|]; [| done].
    destruct (decide _); [| done]. simpl.
    unfold history. rewrite !order_by_sort_Permutation. simpl.
    generalize (appointments st) as l. intros l.
    induction l as [|x l IH]; [done |].
    unfold sql_update in *. rewrite fmap_cons, !filter_cons.
    destruct (decide (Appointment.confirmation_code x = code)); simpl;
      destruct (decide (Appointment.mobile x = mobile)); simpl;
      by rewrite IH.
  - intros a Hfound Hres. eexists. split; [by apply Hlisted |].
    split; [reflexivity |]. by repeat split.
Qed.

Lemma history_after_cancel_witness :
  appointment_A_cancelled
  ∈ history "9000000001" (cancel "MB-20240105-0001" booked_once).1 ∧
  ∃ a', a' ∈ history "9000000001" (cancel "MB-20240105-0001" booked_once).1 ∧
        Appointment.status a' = "CANCELLED" ∧
        same_but_status appointment_A a'.
Proof.
  destruct (history_after_cancel "MB-20240105-0001" "9000000001" booked_once)
    as (_ & Hlisted & Hcancelled).
  split.
  - exact (Hlisted appointment_A eq_refl eq_refl).
  - exact (Hcancelled appointment_A eq_refl eq_refl).
Defined.

(** ** [admin_dashboard] *)

Lemma flip_le_partial_order : PartialOrder (flip String.le).
Proof.
  split; [split |].
  - intros x. unfold flip. reflexivity.
  - intros x y z Hxy Hyz. unfold flip in *. by etrans.
  - intros x y Hxy Hyx. unfold flip in *. by apply (anti_symm String.le).
Qed.

Lemma flip_le_total : Total (flip String.le).
Proof. intros x y. unfold flip. apply String.le_total. Qed.

Lemma by_date_desc_time_total : Total by_date_desc_time.
Proof.
  apply order_by_total.
  - intros x y. unfold flip. apply _.
  - apply flip_le_partial_order.
  - apply flip_le_total.
  - apply String.le_total.
Qed.

Lemma by_date_desc_time_transitive : Transitive by_date_desc_time.
Proof.
  apply order_by_transitive; [apply flip_le_partial_order | apply _].
Qed.

Lemma count_status_le status (appts : list Appointment.t) :
  count_status status appts ≤ length appts.
Proof. apply length_filter. Qed.

Lemma active_split (appts : list Appointment.t) :
  length (filter (λ a, is_active (Appointment.status a)) appts)
  = count_status "RESERVED" appts + count_status "CONFIRMED" appts.
Proof.
  unfold count_status. induction appts as [|a l IH]; [done |].
  rewrite !filter_cons.
  destruct (decide (is_active (Appointment.status a))) as [Hact | Hact],
           (decide (Appointment.status a = "RESERVED")) as [Hr | Hr],
           (decide (Appointment.status a = "CONFIRMED")) as [Hc | Hc];
    unfold is_active in Hact; simpl; try lia; try tauto.
  rewrite Hr in Hc. discriminate Hc.
Qed.

(** X15.  The dashboard hides nothing and counts within bounds: its two
    lists hold the rows of the two tables, booked slots and closed
    appointments included, in the order of the queries; [total] is the
    number of appointments, and the reserved and the confirmed ones together,
    like the ones of today, are at most that many. *)
Theorem admin_dashboard_spec
    (date_now : string) (settings : list Settings.t) (st : Store) :
  let d := admin_dashboard date_now settings st in
  dash_appointments d ≡ₚ appointments st ∧
  StronglySorted by_date_desc_time (dash_appointments d) ∧
  dash_slots d ≡ₚ slots st ∧
  StronglySorted by_date_start (dash_slots d) ∧
  total (dash_stats d) = length (appointments st) ∧
  reserved (dash_stats d) + confirmed (dash_stats d) ≤ total (dash_stats d) ∧
  today (dash_stats d) ≤ total (dash_stats d).
Proof.
  simpl. repeat split.
  - apply order_by_sort_Permutation.
  - apply StronglySorted_order_by_sort;
      [apply by_date_desc_time_transitive | apply by_date_desc_time_total].
  - apply order_by_sort_Permutation.
  - apply StronglySorted_order_by_sort;
      [apply by_date_start_transitive | apply by_date_start_total].
  - rewrite <- active_split. apply length_filter.
  - apply length_filter.
Qed.

Lemma sum_holders_of_slot (ss : list Slot.t) (j : nat) :
  NoDup (Slot.id <$> ss) → j ∈ (Slot.id <$> ss) →
  sum_list_with (λ s, if decide (Slot.id s = j) then 1 else 0) ss = 1.
Proof.
  induction ss as [|s ss IH]; intros Hnd Hin.
  - by apply elem_of_nil in Hin.
  - rewrite fmap_cons in Hnd, Hin. apply NoDup_cons in Hnd as [Hfresh Hnd].
    simpl. destruct (decide (Slot.id s = j)) as [Hid | Hid].
    + assert (Hzero : sum_list_with
                        (λ s, if decide (Slot.id s = j) then 1 else 0) ss = 0).
      { clear IH Hin Hnd. induction ss as [|t ss IH]; [done |]. simpl.
        rewrite fmap_cons in Hfresh. apply not_elem_of_cons in Hfresh as [? ?].
        rewrite decide_False by congruence. by rewrite IH. }
      lia.
    + apply elem_of_cons in Hin as [Hin | Hin]; [congruence |].
      by rewrite IH.
Qed.

Lemma sum_holders_active (ss : list Slot.t) (a : Appointment.t) :
  is_active (Appointment.status a) →
  sum_list_with (λ s, if decide (holds_slot (Slot.id s) a) then 1 else 0) ss
  = sum_list_with
      (λ s, if decide (Slot.id s = Appointment.slot_id a) then 1 else 0) ss.
Proof.
  intros Hact. induction ss as [|s ss IHs]; [done |]. simpl.
  rewrite IHs. f_equal. unfold holds_slot.
  destruct (decide (Slot.id s = Appointment.slot_id a)) as [Hid | Hid].
  - rewrite decide_True; [done |]. by split.
  - rewrite decide_False; [done |]. intros [? _]. congruence.
Qed.

Lemma sum_active_counts (ss : list Slot.t) (appts : list Appointment.t) :
  NoDup (Slot.id <$> ss) →
  (∀ a, a ∈ appts → Appointment.slot_id a ∈ (Slot.id <$> ss)) →
  sum_list_with (λ s, active_count (Slot.id s) appts) ss
  = length (filter (λ a, is_active (Appointment.status a)) appts).
Proof.
  intros Hnd. induction appts as [|a l IH]; intros Href.
  - clear Hnd Href. induction ss as [|s ss IHs]; [done |].
    simpl in *. rewrite IHs. reflexivity.
  - assert (Hsplit : ∀ ss0 : list Slot.t,
              sum_list_with (λ s, active_count (Slot.id s) (a :: l)) ss0
              = sum_list_with
                  (λ s, if decide (holds_slot (Slot.id s) a) then 1 else 0) ss0
                + sum_list_with (λ s, active_count (Slot.id s) l) ss0).
    { intros ss0. induction ss0 as [|s ss0 IHs]; [done |]. simpl.
      rewrite IHs, active_count_cons. lia. }
    rewrite Hsplit, IH by (intros b Hb; apply Href, elem_of_cons; auto).
    rewrite filter_cons.
    destruct (decide (is_active (Appointment.status a))) as [Hact | Hact].
    + rewrite (sum_holders_active ss a Hact).
      rewrite (sum_holders_of_slot ss (Appointment.slot_id a) Hnd)
        by (apply Href, elem_of_cons; auto).
      done.
    + replace (sum_list_with
                 (λ s, if decide (holds_slot (Slot.id s) a) then 1 else 0) ss)
        with 0; [done |].
      clear -Hact. induction ss as [|s ss IHs]; [done |]. simpl.
      rewrite <- IHs. rewrite decide_False; [done |]. by intros [_ ?].
Qed.

Lemma sum_booked (ss : list Slot.t) (appts : list Appointment.t) :
  (∀ s, s ∈ ss →
     active_count (Slot.id s) appts = if Slot.is_booked s then 1 else 0) →
  sum_list_with (λ s, active_count (Slot.id s) appts) ss = booked_count ss.
Proof.
  unfold booked_count. induction ss as [|s ss IH]; intros Hacc; [done |].
  simpl. rewrite filter_cons.
  rewrite IH by (intros t Ht; apply Hacc, elem_of_cons; auto).
  rewrite (Hacc s) by (apply elem_of_cons; auto).
  by destruct (Slot.is_booked s).
Qed.

(** X16.  The dashboard and the slot table agree.  In every store produced
    by bookings, cancellations, sweeps, new slots and status updates that
    keep an appointment active or inactive, the reserved and the confirmed
    appointments that the dashboard counts are as many as the booked
    slots. *)
Theorem dashboard_counts_booked_slots
    (date_now : string) (settings : list Settings.t) (st : Store) :
  reachable_by keeps_activity st →
  reserved (dash_stats (admin_dashboard date_now settings st))
  + confirmed (dash_stats (admin_dashboard date_now settings st))
  = booked_count (slots st).
Proof.
  intros Hreach. simpl. rewrite <- active_split.
  pose proof (reachable_by_consistent _ _ Hreach) as Hst.
  rewrite <- (sum_active_counts (slots st)).
  - apply sum_booked. by apply reachable_accounting.
  - by apply consistent_slot_ids_NoDup.
  - by destruct Hst.
Qed.

Lemma dashboard_counts_booked_slots_witness :
  reserved (dash_stats (admin_dashboard "2024-01-05" [] confirmed_by_staff))
  + confirmed (dash_stats (admin_dashboard "2024-01-05" [] confirmed_by_staff))
  = booked_count (slots confirmed_by_staff).
Proof.
  apply dashboard_counts_booked_slots.
  apply reachable_run.
  - apply reachable_run; [| exact I]. apply reachable_one_slot. exact I.
  - intros a Ha _. apply list_elem_of_singleton in Ha. subst a.
    split; intros _; [by right | by left].
Defined.

(** ** [admin_required] *)

Lemma startswith_spec (prefix s : string) :
  startswith prefix s = true ↔ ∃ rest, s = prefix +:+ rest.
Proof.
  revert s. induction prefix as [|a p IH]; intros s; simpl.
  - split; [intros _; by exists s | done].
  - destruct s as [|b r].
    + split; [done | intros [rest Hrest]; discriminate Hrest].
    + destruct (decide (a = b)) as [-> | Hne].
      * rewrite IH. split; intros [rest Hrest]; exists rest.
        -- by rewrite Hrest.
        -- by injection Hrest.
      * split; [done |]. intros [rest Hrest]. injection Hrest. congruence.
Qed.

Lemma split_bearer (token : string) :
  split_space_once ("Bearer " +:+ token) !! 1 = Some token.
Proof. reflexivity. Qed.

(** X17.  An admin route runs only behind a valid token.  The wrapped
    handler is run, and its answer passed on, exactly when the request has
    an [Authorization] header that reads [Bearer], a space and a token that
    [jwt.decode] accepts; what [decode] is given is all of the header after
    that first space. *)
Theorem admin_required_passes_iff {R : Type}
    (decode : string → JwtVerdict) (fn : Store → Store * R)
    (authorization : option string) (st st' : Store) (r : R) :
  admin_required decode fn authorization st = (st', Passed r) ↔
  ∃ token, authorization = Some ("Bearer " +:+ token) ∧
           decode token = JwtValid ∧ fn st = (st', r).
Proof.
  unfold admin_required.
  destruct (startswith "Bearer " (default EmptyString authorization))
    eqn:Hstart; simpl.
  - apply startswith_spec in Hstart as [token Hauth].
    rewrite Hauth, split_bearer. split.
    + destruct (decode token) eqn:Hdec; try discriminate.
      destruct (fn st) as [st1 r1]. intros [= <- <-].
      exists token. split; [| done].
      destruct authorization as [auth|]; simpl in Hauth; [by subst |].
      discriminate Hauth.
    + intros (token' & -> & Hdec & Hfn). simpl in Hauth.
      apply (inj (String.app "Bearer ")) in Hauth as <-.
      by rewrite Hdec, Hfn.
  - split; [discriminate |]. intros (token & -> & _).
    simpl in Hstart. discriminate Hstart.
Qed.

(** X18.  Without a valid token nothing is written.  A guarded route either
    passes the request on or answers 401 with the store as it was; the
    [IndexError] of the token lookup cannot occur; and a request without
    the header is answered with "Missing token". *)
Theorem admin_required_rejects_unchanged {R : Type}
    (decode : string → JwtVerdict) (fn : Store → Store * R)
    (authorization : option string) (st : Store) :
  ((∃ r, admin_required decode fn authorization st
         = ((fn st).1, Passed r)) ∨
   (∃ error,
      admin_required decode fn authorization st = (st, Unauthorized error))) ∧
  admin_required decode fn None st = (st, Unauthorized "Missing token").
Proof.
  split; [| reflexivity]. unfold admin_required.
  destruct (startswith "Bearer " (default EmptyString authorization))
    eqn:Hstart; simpl; [| eauto].
  apply startswith_spec in Hstart as [token ->]. rewrite split_bearer.
  destruct (decode token); [| eauto | eauto].
  left. destruct (fn st) as [st1 r1]. eauto.
Qed.

Lemma admin_required_passes_iff_witness :
  admin_required demo_decode (add_slot "2024-01-10" "10:00" "10:30")
                 (Some "Bearer good.token") empty_store
  = (one_slot, Passed Success).
Proof.
  apply admin_required_passes_iff. exists "good.token". by repeat split.
Defined.

(** ** [admin_settings] *)

(** X19.  [admin_settings] never creates the settings row.  It rewrites the
    three columns of every row with id 1 and leaves the other rows and the
    number of rows as they are; on a table without row 1 it changes nothing
    and still answers with success. *)
Theorem admin_settings_spec
    (doctor_whatsapp upi_link default_amount : string)
    (table : list Settings.t) :
  let table' := (admin_settings doctor_whatsapp upi_link default_amount
                                table).1 in
  (admin_settings doctor_whatsapp upi_link default_amount table).2 = Success ∧
  length table' = length table ∧
  (∀ k r, table !! k = Some r →
     table' !! k =
       Some (if decide (Settings.id r = 1)
             then Settings.mk 1 doctor_whatsapp upi_link default_amount
             else r)) ∧
  ((∀ r, r ∈ table → Settings.id r ≠ 1) → table' = table).
Proof.
  simpl. split; [done |]. split; [apply length_sql_update |]. split.
  - intros k r Hk. rewrite (lookup_sql_update _ _ _ _ _ Hk).
    destruct (decide (Settings.id r = 1)) as [-> |]; done.
  - intros Hno. by apply sql_update_none.
Qed.

Lemma admin_settings_spec_witness :
  (admin_settings "919000000000" "upi://pay" "500" []).1 = [].
Proof.
  apply (admin_settings_spec "919000000000" "upi://pay" "500" []).
  intros r Hr. by apply elem_of_nil in Hr.
Defined.

(** ** What every reachable ledger looks like *)

Lemma same_booking_keeps_identity (h : Appointment.t → Appointment.t) :
  (∀ a, same_booking a (h a)) → keeps_identity h.
Proof.
  intros Hh a. destruct (Hh a) as (? & ? & _ & _ & _ & ? & _). auto.
Qed.

Lemma same_booking_update (cond : Appointment.t → Prop)
    `{!∀ r, Decision (cond r)} (set : Appointment.t → Appointment.t) :
  (∀ a, same_booking a (set a)) →
  ∀ a, same_booking a (if decide (cond a) then set a else a).
Proof.
  intros Hset a. destruct (decide (cond a)); [apply Hset |].
  apply same_booking_refl.
Qed.

Lemma same_booking_set_status st a :
  same_booking a (Appointment.set_status st a).
Proof. by repeat split. Qed.

Lemma same_booking_set_admin st link remarks now a :
  same_booking a (Appointment.set_admin st link remarks now a).
Proof. by repeat split. Qed.

(** The appointments after an operation: the old rows, each rewritten
    without a change to what identifies the booking, or, after a successful
    [book], the old rows and one more. *)
Lemma run_appointments (op : Operation) (st : Store) :
  (∃ h, (∀ a, same_booking a (h a)) ∧
        appointments (run op st) = h <$> appointments st) ∨
  (∃ f today now code,
     op = Book f today now ∧ book f today now st = (run op st, Booked code)).
Proof.
  assert (Hsame : ∀ st0 : Store,
            ∃ h, (∀ a, same_booking a (h a)) ∧
                 appointments st0 = h <$> appointments st0).
  { intros st0. exists id. split; [apply same_booking_refl |].
    by rewrite list_fmap_id. }
  destruct op as [f today now | code | d b e | id status link remarks now
                 | age threshold]; simpl.
  - destruct (book_cases f today now st) as [-> | (st' & code & Hbook)].
    + left. apply Hsame.
    + right. exists f, today, now, code. split; [done |]. by rewrite Hbook.
  - left. unfold cancel. destruct (head _) as [a|]; [| apply Hsame].
    destruct (decide _); [| apply Hsame]. simpl.
    eexists. split; [| reflexivity].
    apply same_booking_update, same_booking_set_status.
  - left. apply Hsame.
  - left. eexists. split; [| reflexivity].
    apply same_booking_update, same_booking_set_admin.
  - left. unfold auto_expire_reserved. rewrite sweep_rows_appointments.
    eexists. split; [| reflexivity].
    apply same_booking_update, same_booking_set_status.
Qed.

Lemma same_window_trans s1 s2 s3 :
  same_window s1 s2 → same_window s2 s3 → same_window s1 s3.
Proof.
  intros (? & ? & ? & ?) (? & ? & ? & ?). repeat split; congruence.
Qed.

Lemma window_kept_by_update (cond : Slot.t → Prop)
    `{!∀ r, Decision (cond r)} (b : bool) (ss : list Slot.t) (s : Slot.t) :
  s ∈ ss →
  ∃ s', s' ∈ sql_update cond (Slot.set_is_booked b) ss ∧ same_window s s'.
Proof.
  intros Hs. eexists. split.
  - apply elem_of_sql_update. by exists s.
  - by destruct (decide (cond s)).
Qed.

Lemma window_kept_by_sweep (selected : list Appointment.t) (st : Store)
    (s : Slot.t) :
  s ∈ slots st →
  ∃ s', s' ∈ slots (foldl expire_one st selected) ∧ same_window s s'.
Proof.
  revert st s. induction selected as [|b selected IH]; intros st s Hs.
  - exists s. split; [done | apply same_window_refl].
  - simpl.
    assert (Hstep : ∃ s1, s1 ∈ slots (expire_one st b) ∧ same_window s s1).
    { unfold expire_one. destruct (decide _).
      - simpl. by apply window_kept_by_update.
      - exists s. split; [done | apply same_window_refl]. }
    destruct Hstep as (s1 & Hs1 & Hw1).
    destruct (IH _ _ Hs1) as (s' & Hs' & Hw').
    exists s'. split; [done |]. by eapply same_window_trans.
Qed.

(** No operation removes a slot or changes its window. *)
Lemma run_slots (op : Operation) (st : Store) (s : Slot.t) :
  s ∈ slots st → ∃ s', s' ∈ slots (run op st) ∧ same_window s s'.
Proof.
  intros Hs.
  assert (Hsame : ∃ s', s' ∈ slots st ∧ same_window s s')
    by (exists s; split; [done | apply same_window_refl]).
  destruct op as [f today now | code | d b e | id status link remarks now
                 | age threshold]; simpl.
  - destruct (book_cases f today now st) as [-> | (st' & code & Hbook)];
      [done |].
    rewrite Hbook. simpl.
    apply book_Booked_inv in Hbook as (? & ? & ? & ? & ? & _ & _ & _ & ->).
    simpl. by apply window_kept_by_update.
  - unfold cancel. destruct (head _) as [a|]; [| done].
    destruct (decide _); [| done]. simpl. by apply window_kept_by_update.
  - exists s. split; [| apply same_window_refl]. apply elem_of_app. auto.
  - done.
  - by apply window_kept_by_sweep.
Qed.

Lemma matches_slot_kept (ss ss' : list Slot.t) (a a' : Appointment.t) :
  (∀ s, s ∈ ss → ∃ s', s' ∈ ss' ∧ same_window s s') →
  same_booking a a' → matches_slot ss a → matches_slot ss' a'.
Proof.
  intros Hss (_ & _ & _ & _ & _ & Hslot & Hdate & Htime & _)
         (s & Hs & Hid & Hd & Ht).
  destruct (Hss s Hs) as (s' & Hs' & Hid' & Hd' & Hst' & He').
  exists s'. split; [done |]. rewrite Hid', Hd', Hst', He'.
  rewrite Hslot, Hdate, Htime. auto.
Qed.

(** X20.  Every appointment belongs to a slot.  In every reachable store,
    each appointment, whatever its status, refers to a slot of the slot
    table and carries the date of that slot as its [appointment_date] and
    the start and end time of that slot as its [slot_time]. *)
Theorem reachable_appointments_match_slots (st : Store) (a : Appointment.t) :
  reachable st → a ∈ appointments st → matches_slot (slots st) a.
Proof.
  intros Hreach. revert a.
  induction Hreach as [|st op Hreach IH _]; intros a' Ha'.
  - by apply elem_of_nil in Ha'.
  - destruct (run_appointments op st)
      as [(h & Hh & Heq) | (f & today & now & code & -> & Hbook)].
    + rewrite Heq in Ha'. apply list_elem_of_fmap in Ha' as (a & -> & Ha).
      eapply matches_slot_kept; [apply run_slots | apply Hh | by apply IH].
    + pose proof (run_slots (Book f today now) st) as Hslots.
      pose proof Hbook as Hinv.
      apply book_Booked_inv in Hinv
        as (i & name & mob & addr & slot & _ & Hhead & _ & Hrun).
      apply head_Some_elem_of, list_elem_of_filter in Hhead as [_ Hin].
      rewrite Hrun in Ha'. simpl in Ha'.
      apply elem_of_app in Ha' as [Ha | Ha].
      * eapply matches_slot_kept;
          [exact Hslots | apply same_booking_refl | by apply IH].
      * apply list_elem_of_singleton in Ha as ->.
        eapply (matches_slot_kept (slots st));
          [exact Hslots | apply same_booking_refl |].
        exists slot. by repeat split.
Qed.

Lemma reachable_appointments_match_slots_witness :
  matches_slot (slots two_bookings)
               (Appointment.set_status "CANCELLED" appointment_A).
Proof.
  apply reachable_appointments_match_slots.
  - repeat (apply reachable_run; [| exact I]). apply reachable_empty.
  - apply list_elem_of_here.
Defined.

(** X21.  Rowids and codes run in step.  In every reachable store the k-th
    appointment has the rowid k and a code made of some date and of k padded
    to four digits: the number at the end of a confirmation code is the
    rowid of its appointment, and the count of the appointments is the
    number at the end of the last code. *)
Theorem reachable_appointments_numbered
    (st : Store) (k : nat) (a : Appointment.t) :
  reachable st → appointments st !! k = Some a → numbered (S k) a.
Proof.
  intros Hreach Hk. split.
  - pose proof (reachable_by_consistent _ _ Hreach) as [_ Hids _ _].
    assert (Hid : (Appointment.id <$> appointments st) !! k
                  = Some (Appointment.id a))
      by (by rewrite list_lookup_fmap, Hk).
    rewrite Hids in Hid. apply lookup_seq in Hid as [-> _]. done.
  - revert k a Hk. induction Hreach as [|st op Hreach IH _]; intros k a' Hk.
    + done.
    + destruct (run_appointments op st)
        as [(h & Hh & Heq) | (f & today & now & code & -> & Hbook)].
      * rewrite Heq, list_lookup_fmap in Hk.
        destruct (appointments st !! k) as [a|] eqn:Ha; [| done].
        injection Hk as <-. destruct (IH k a Ha) as [d Hd].
        exists d. destruct (Hh a) as (_ & -> & _). done.
      * pose proof Hbook as Hinv.
        apply book_Booked_inv in Hinv
          as (i & name & mob & addr & slot & _ & _ & Hcode & Hrun).
        rewrite Hrun in Hk. simpl in Hk.
        apply lookup_app_Some in Hk as [Hk | [Hlen Hk]]; [by apply IH |].
        apply list_lookup_singleton_Some in Hk as [Hk <-]. simpl.
        exists today. rewrite Hcode.
        by replace (S k) with (length (appointments st) + 1) by lia.
Qed.

Lemma reachable_appointments_numbered_witness :
  numbered 1 (Appointment.set_status "CANCELLED" appointment_A).
Proof.
  apply (reachable_appointments_numbered two_bookings 0).
  - repeat (apply reachable_run; [| exact I]). apply reachable_empty.
  - reflexivity.
Defined.

Lemma status_after_cancel_witness :
  status "MB-20240105-0001" (cancel "MB-20240105-0001" booked_once).1
  = Found appointment_A_cancelled ∧
  (∃ a', status "MB-20240105-0001" (cancel "MB-20240105-0001" booked_once).1
         = Found a' ∧
         Appointment.status a' = "CANCELLED" ∧
         same_but_status appointment_A a') ∧
  status "MB-20240105-0001" (cancel "MB-20240105-0002" two_bookings).1
  = status "MB-20240105-0001" two_bookings.
Proof.
  destruct (status_after_cancel "MB-20240105-0001" booked_once)
    as (Heq & Hcancelled & _).
  split; [exact Heq |]. split; [exact (Hcancelled _ eq_refl eq_refl) |].
  apply (proj2 (proj2 (status_after_cancel "MB-20240105-0002" two_bookings))).
  discriminate.
Defined.

(** ** [add_slot] checks nothing *)

Lemma next_rowid_snoc (ids : list nat) :
  next_rowid (ids ++ [next_rowid ids]) = S (next_rowid ids).
Proof. unfold next_rowid. rewrite max_list_snoc. lia. Qed.

(** X22.  [add_slot] does not refuse a window that the table already has:
    the same window added twice gives two slots with consecutive rowids,
    both free and both listed by [available_slots]; the slots and the
    appointments that were there are untouched. *)
Theorem add_slot_twice
    (slot_date start_time end_time : string) (st : Store) :
  let n := next_rowid (Slot.id <$> slots st) in
  let st2 := (add_slot slot_date start_time end_time
                (add_slot slot_date start_time end_time st).1).1 in
  slots st2 = slots st ++ [Slot.mk n slot_date start_time end_time false;
                           Slot.mk (S n) slot_date start_time end_time false] ∧
  appointments st2 = appointments st ∧
  Slot.mk n slot_date start_time end_time false ∈ available_slots st2 ∧
  Slot.mk (S n) slot_date start_time end_time false ∈ available_slots st2.
Proof.
  intros n st2.
  assert (Hslots : slots st2
                   = slots st
                     ++ [Slot.mk n slot_date start_time end_time false;
                         Slot.mk (S n) slot_date start_time end_time false]).
  { unfold st2. simpl. rewrite fmap_app. simpl.
    rewrite next_rowid_snoc. by rewrite <- app_assoc. }
  split; [done |]. split; [done |].
  split; apply elem_of_available_slots; rewrite Hslots;
    (split; [| done]); apply elem_of_app; right.
  - apply list_elem_of_here.
  - apply list_elem_of_further, list_elem_of_here.
Qed.

(** ** The length of a code *)

(** X23.  The confirmation code of a booking has the sixteen characters of
    [MB-YYYYMMDD-NNNN] as long as the clock shows a year of at most four
    digits and the ledger holds fewer than 9999 appointments; the booking
    made with 9999 appointments in the ledger gets a code of seventeen
    characters, as the number is padded and never cut. *)
Theorem booked_code_length
    (f : BookForm.t) (today now : Datetime) (st st' : Store) (code : string) :
  book f today now st = (st', Booked code) →
  year today < 10000 → month today < 100 → day today < 100 →
  (length (appointments st) < 9999 → String.length code = 16) ∧
  (length (appointments st) = 9999 → String.length code = 17).
Proof.
  intros Hbook Hy Hm Hd.
  apply book_Booked_inv in Hbook as (? & ? & ? & ? & ? & _ & _ & -> & _).
  split.
  - intros Hn. apply confirmation_code_length; try done.
    assert (Hstep : 10000 = S 9999) by reflexivity. lia.
  - intros ->.
    rewrite !string_length_app, length_strftime_Ymd by done.
    vm_compute. reflexivity.
Qed.

Lemma booked_code_length_witness : String.length "MB-20240105-0001" = 16.
Proof.
  refine (proj1 (booked_code_length form_A jan5 jan5 one_slot booked_once
                   "MB-20240105-0001" eq_refl _ _ _) _);
    apply Nat.ltb_lt; reflexivity.
Defined.

(** * Two [book] requests at once *)

(** The three statements of one request, run without the other request in
    between, are [book]. *)
Lemma first_alone (a b : BookCall) (st : Store) (pb : Progress) :
  foldl (interleave_step a b) (st, Arrived, pb) [First; First; First]
  = ((book (call_form a) (call_today a) (call_now a) st).1,
     Finished (book (call_form a) (call_today a) (call_now a) st).2, pb).
Proof.
  destruct a as [[[i|] name mob addr] today now]; simpl; [| done].
  unfold book. simpl.
  destruct (head (filter (is_free i) (slots st))) as [slot|]; simpl; [| done].
  by destruct name, mob, addr.
Qed.

Lemma second_alone (a b : BookCall) (st : Store) (pa : Progress) :
  foldl (interleave_step a b) (st, pa, Arrived) [Second; Second; Second]
  = ((book (call_form b) (call_today b) (call_now b) st).1, pa,
     Finished (book (call_form b) (call_today b) (call_now b) st).2).
Proof.
  destruct b as [[[i|] name mob addr] today now]; simpl; [| done].
  unfold book. simpl.
  destruct (head (filter (is_free i) (slots st))) as [slot|]; simpl; [| done].
  by destruct name, mob, addr.
Qed.

Lemma booked_slot_taken f today now st st' code i :
  book f today now st = (st', Booked code) → BookForm.slot_id f = Some i →
  ∀ s, s ∈ slots st' → Slot.id s = i → Slot.is_booked s = true.
Proof.
  intros Hbook Hreq.
  apply book_Booked_inv in Hbook
    as (i' & ? & ? & ? & slot & -> & Hhead & _ & ->).
  simpl in Hreq. injection Hreq as ->.
  apply head_Some_elem_of, list_elem_of_filter in Hhead as [[Hid _] _].
  simpl. intros s Hs His. apply elem_of_sql_update in Hs as (s0 & _ & ->).
  destruct (decide (Slot.id s0 = Slot.id slot)) as [|Hne]; [done |].
  destruct Hne. simpl in His. congruence.
Qed.

(** One [book] after another on the same slot: not both are booked, and on
    a free slot the first request that has its keys is. *)
Lemma one_after_the_other f g today now today' now' st i :
  BookForm.slot_id f = Some i → BookForm.slot_id g = Some i →
  let first := book f today now st in
  let second := book g today' now' first.1 in
  (∀ c c', ¬ (first.2 = Booked c ∧ second.2 = Booked c')) ∧
  ((∃ s, s ∈ slots st ∧ is_free i s) → ¬ lacks_key f →
   ∃ c, first.2 = Booked c ∧ second.2 = SlotNotAvailable).
Proof.
  intros Hf Hg first second. subst first second.
  destruct (book f today now st) as [st1 r1] eqn:Hbook. simpl.
  assert (Hthen : ∀ c, r1 = Booked c →
            (book g today' now' st1).2 = SlotNotAvailable).
  { intros c ->. unfold book. rewrite Hg.
    rewrite no_free_slot; [done |].
    by apply (booked_slot_taken f today now st st1 c i). }
  split.
  - intros c c' [Hc Hc']. rewrite (Hthen c Hc) in Hc'. discriminate Hc'.
  - intros (s & Hs & Hid & Hfree) Hkeys.
    destruct (free_slot_found i (slots st) s Hs Hid Hfree)
      as (slot & Hhead & _).
    assert (Hbooked : ∃ c, r1 = Booked c).
    { unfold book in Hbook. rewrite Hf, Hhead in Hbook.
      unfold lacks_key in Hkeys.
      destruct (BookForm.patient_name f), (BookForm.mobile f),
               (BookForm.address f); simpl in Hbook;
        try (exfalso; tauto).
      injection Hbook as _ <-. eauto. }
    destruct Hbooked as [c Hc]. exists c. split; [done |]. by apply (Hthen c).
Qed.

(** C8, against the code.  Two requests for the free slot 1: the second
    fetches the slot before the first has written.  Both are answered with a
    confirmation code and two RESERVED appointments hold the slot; when both
    have also counted before either writes, the two codes are the same. *)
Lemma overlapping_bookings_both_succeed :
  complete_schedule overlapping ∧ complete_schedule in_lockstep ∧
  (∃ st', interleave overlapping call_A call_A2 one_slot
          = (st', Finished (Booked "MB-20240105-0001"),
                  Finished (Booked "MB-20240105-0002")) ∧
          active_count 1 (appointments st') = 2) ∧
  (∃ st', interleave in_lockstep call_A call_A2 one_slot
          = (st', Finished (Booked "MB-20240105-0001"),
                  Finished (Booked "MB-20240105-0001")) ∧
          active_count 1 (appointments st') = 2) ∧
  ¬ one_booked (interleave overlapping call_A call_A2 one_slot).1.2
               (interleave overlapping call_A call_A2 one_slot).2.
Proof.
  split; [by split |]. split; [by split |].
  split; [eexists; split; reflexivity |].
  split; [eexists; split; reflexivity |].
  intros [(c & _ & Hb) | (c & Ha & _)]; [discriminate Hb | discriminate Ha].
Qed.

(** C8, as the code has it.  [book] is three statements with nothing that
    holds them together.  When two requests for the same slot do not
    overlap, the one answering before the other arrives, they do what two
    calls of [book] in a row do: at most one is answered with a code, and
    on a free slot, for requests that have their keys, the earlier one is
    booked and the later one is told that the slot is not available. *)
Theorem bookings_in_turn_one_succeeds
    (a b : BookCall) (st : Store) (i : nat) :
  BookForm.slot_id (call_form a) = Some i →
  BookForm.slot_id (call_form b) = Some i →
  let after_a := book (call_form a) (call_today a) (call_now a) st in
  let after_b := book (call_form b) (call_today b) (call_now b) st in
  interleave first_then_second a b st
    = ((book (call_form b) (call_today b) (call_now b) after_a.1).1,
       Finished after_a.2,
       Finished (book (call_form b) (call_today b) (call_now b)
                      after_a.1).2) ∧
  interleave second_then_first a b st
    = ((book (call_form a) (call_today a) (call_now a) after_b.1).1,
       Finished (book (call_form a) (call_today a) (call_now a)
                      after_b.1).2,
       Finished after_b.2) ∧
  (∀ schedule, schedule = first_then_second ∨ schedule = second_then_first →
     (∀ c c', ¬ ((interleave schedule a b st).1.2 = Finished (Booked c) ∧
                 (interleave schedule a b st).2 = Finished (Booked c'))) ∧
     ((∃ s, s ∈ slots st ∧ is_free i s) →
      ¬ lacks_key (call_form a) → ¬ lacks_key (call_form b) →
      one_booked (interleave schedule a b st).1.2
                 (interleave schedule a b st).2)).
Proof.
  intros Ha Hb after_a after_b.
  assert (Hab : interleave first_then_second a b st
            = ((book (call_form b) (call_today b) (call_now b) after_a.1).1,
               Finished after_a.2,
               Finished (book (call_form b) (call_today b) (call_now b)
                              after_a.1).2)).
  { unfold interleave, first_then_second.
    change [First; First; First; Second; Second; Second]
      with ([First; First; First] ++ [Second; Second; Second]).
    by rewrite foldl_app, first_alone, second_alone. }
  assert (Hba : interleave second_then_first a b st
            = ((book (call_form a) (call_today a) (call_now a) after_b.1).1,
               Finished (book (call_form a) (call_today a) (call_now a)
                              after_b.1).2,
               Finished after_b.2)).
  { unfold interleave, second_then_first.
    change [Second; Second; Second; First; First; First]
      with ([Second; Second; Second] ++ [First; First; First]).
    by rewrite foldl_app, second_alone, first_alone. }
  split; [exact Hab |]. split; [exact Hba |].
  destruct (one_after_the_other (call_form a) (call_form b)
              (call_today a) (call_now a) (call_today b) (call_now b)
              st i Ha Hb) as [Hnot_ab Hone_ab].
  destruct (one_after_the_other (call_form b) (call_form a)
              (call_today b) (call_now b) (call_today a) (call_now a)
              st i Hb Ha) as [Hnot_ba Hone_ba].
  subst after_a after_b. intros schedule [-> | ->].
  - rewrite Hab. cbn [fst snd]. split.
    + intros c c' [[= Hc] [= Hc']]. by apply (Hnot_ab c c').
    + intros Hfree Hka _. destruct (Hone_ab Hfree Hka) as (c & Hc & Hc').
      left. exists c. cbn zeta in Hc, Hc'. by rewrite Hc, Hc'.
  - rewrite Hba. cbn [fst snd]. split.
    + intros c c' [[= Hc] [= Hc']]. by apply (Hnot_ba c' c).
    + intros Hfree _ Hkb. destruct (Hone_ba Hfree Hkb) as (c & Hc & Hc').
      right. exists c. cbn zeta in Hc, Hc'. by rewrite Hc, Hc'.
Qed.

Lemma bookings_in_turn_one_succeeds_witness :
  interleave first_then_second call_A call_A2 one_slot
  = (booked_once, Finished (Booked "MB-20240105-0001"),
     Finished SlotNotAvailable) ∧
  one_booked (interleave second_then_first call_A call_A2 one_slot).1.2
             (interleave second_then_first call_A call_A2 one_slot).2.
Proof.
  destruct (bookings_in_turn_one_succeeds call_A call_A2 one_slot 1
              eq_refl eq_refl) as (Hab & _ & Hone).
  split; [exact Hab |].
  apply (Hone second_then_first (or_intror eq_refl)).
  - exists slot_1. split; [apply list_elem_of_here | by split].
  - intros [H | [H | [H | H]]]; discriminate H.
  - intros [H | [H | [H | H]]]; discriminate H.
Defined.
